(** * quicksort_openmp.cpp: the in-place partition sort

    A shallow embedding of [quickSort] (lines 112-136 of
    [src/quicksort_openmp.cpp]) and the properties of its partition step and
    of its recursion.

    The array [int* numbers] is a list of integers together with a trace of
    the events the routine performs on it (loads, stores, spawned tasks).
    Indices are C++ [int]s: 32-bit two's-complement values whose arithmetic
    wraps around.  A load or store outside the array is a fault; the run
    stops there.

    The two [#pragma omp task] calls work on disjoint index ranges
    ([low..new_high] and [new_low..high] with [new_high < new_low]); the
    embedding runs them one after the other, left range first, which is one
    of the schedules OpenMP allows.  Whichever of the two runs first, the
    array they leave is the same ([quickSort_tasks_commute]).

    The elements are [int]s as well; they are only compared and moved, never
    computed with, so they are kept as plain integers.

    The second part embeds the functions around the sort
    ([generate_random_numbers], [write_numbers_to_file],
    [read_numbers_from_file] and [main]) over a state that adds the files,
    the sequence of values [rand()] returns and the contents of fresh
    memory; console output and the clock are left out. *)

From stdpp Require Import base tactics option list sorting gmap strings.
From Stdlib Require Import ZArith Lia Ascii.

Local Open Scope Z_scope.

(** ** Machine integers *)

Definition INT_MIN : Z := -2147483648.
Definition INT_MAX : Z := 2147483647.

(** The largest upper index for which [high + low] cannot leave the [int]
    range when [low < high]. *)
Definition HALF_MAX : Z := 1073741824.

Definition is_int (z : Z) : Prop := INT_MIN ≤ z ≤ INT_MAX.

(** Reduction of a mathematical integer to the [int] it is stored as. *)
Definition wrap (z : Z) : Z := (z - INT_MIN) `mod` 4294967296 + INT_MIN.

Definition int_add (x y : Z) : Z := wrap (x + y).
Definition int_succ (x : Z) : Z := wrap (x + 1).
Definition int_pred (x : Z) : Z := wrap (x - 1).
(** [x / 2] on [int]: C++ division truncates towards zero. *)
Definition int_half (x : Z) : Z := x `quot` 2.

(** ** Memory, events and outcomes *)

Inductive event : Type :=
  | Load (i : Z)
  | Store (i : Z)
  | Task (low high : Z).

(** [trace] holds the events of the run so far, most recent first. *)
Record state : Type := State { numbers : list Z; trace : list event }.

Inductive fault : Type :=
  | OutOfBounds (i : Z)
  | OutOfFuel.

Inductive outcome (A : Type) : Type :=
  | Ok (x : A) (s : state)
  | Fault (f : fault).
Arguments Ok {A} x s.
Arguments Fault {A} f.

Definition M (A : Type) : Type := state → outcome A.

Definition fail {A} (f : fault) : M A := λ _, Fault f.

#[global] Instance M_ret : MRet M := λ A x s, Ok x s.
#[global] Instance M_bind : MBind M :=
  λ A B k m s, match m s with
               | Ok x s' => k x s'
               | Fault f => Fault f
               end.

(** [a[i]] as the hardware sees it: defined inside the array only. *)
Definition get (a : list Z) (i : Z) : option Z :=
  if bool_decide (0 ≤ i) then a !! Z.to_nat i else None.

Definition upd (a : list Z) (i : Z) (v : Z) : list Z := <[Z.to_nat i := v]> a.

Definition load (i : Z) : M Z :=
  λ s, match get (numbers s) i with
       | Some v => Ok v (State (numbers s) (Load i :: trace s))
       | None => Fault (OutOfBounds i)
       end.

Definition store (i v : Z) : M unit :=
  λ s, match get (numbers s) i with
       | Some _ => Ok tt (State (upd (numbers s) i v) (Store i :: trace s))
       | None => Fault (OutOfBounds i)
       end.

Definition spawn (low high : Z) : M unit :=
  λ s, Ok tt (State (numbers s) (Task low high :: trace s)).

(** Number of array cells; used only to bound the loops below. *)
Definition cells (s : state) : nat := length (numbers s).

(** ** The routine *)

(** [while (numbers[new_low] < pivot) new_low++;] *)
Fixpoint scan_up_fuel (fuel : nat) (pivot new_low : Z) : M Z :=
  match fuel with
  | O => fail OutOfFuel
  | S fuel' =>
      x ← load new_low ;
      if bool_decide (x < pivot)
      then scan_up_fuel fuel' pivot (int_succ new_low)
      else mret new_low
  end.

(** [while (numbers[new_high] > pivot) new_high--;] *)
Fixpoint scan_down_fuel (fuel : nat) (pivot new_high : Z) : M Z :=
  match fuel with
  | O => fail OutOfFuel
  | S fuel' =>
      x ← load new_high ;
      if bool_decide (x > pivot)
      then scan_down_fuel fuel' pivot (int_pred new_high)
      else mret new_high
  end.

(** A scan visits each cell at most once before it leaves the array, so one
    more step than there are cells is enough. *)
Definition scan_up (pivot new_low : Z) : M Z :=
  λ s, scan_up_fuel (S (cells s)) pivot new_low s.
Definition scan_down (pivot new_high : Z) : M Z :=
  λ s, scan_down_fuel (S (cells s)) pivot new_high s.

(** Lines 123-125: [tmp = a[i]; a[i] = a[j]; a[j] = tmp;] *)
Definition swap (i j : Z) : M unit :=
  tmp ← load i ;
  x ← load j ;
  store i x ;;
  store j tmp.

(** Lines 119-129: the partition loop, returning the final cursors
    [(new_low, new_high)]. *)
Fixpoint part_loop (fuel : nat) (pivot new_low new_high : Z) : M (Z * Z) :=
  if bool_decide (new_low ≤ new_high) then
    match fuel with
    | O => fail OutOfFuel
    | S fuel' =>
        nl ← scan_up pivot new_low ;
        nh ← scan_down pivot new_high ;
        if bool_decide (nl ≤ nh) then
          swap nl nh ;;
          part_loop fuel' pivot (int_succ nl) (int_pred nh)
        else
          part_loop fuel' pivot nl nh
    end
  else mret (new_low, new_high).

(** The loop runs at most once per cell of the range (each round but the
    last moves both cursors), so one more round than there are cells is
    enough. *)
Definition part_while (pivot low high : Z) : M (Z * Z) :=
  λ s, part_loop (S (cells s)) pivot low high s.

(** Lines 116-129: read the pivot at the midpoint, run the loop. *)
Definition partition (low high : Z) : M (Z * Z) :=
  pivot ← load (int_half (int_add high low)) ;
  part_while pivot low high.

(** Lines 112-136.  The guard comes first, before anything else is done,
    in every call. *)
Fixpoint quickSort_fuel (fuel : nat) (low high : Z) : M unit :=
  if bool_decide (low >= high) then mret tt
  else
    match fuel with
    | O => fail OutOfFuel
    | S fuel' =>
        cur ← partition low high ;
        spawn low (snd cur) ;;
        quickSort_fuel fuel' low (snd cur) ;;
        spawn (fst cur) high ;;
        quickSort_fuel fuel' (fst cur) high
    end.

(** Every level of the recursion shortens the range, so its depth is at most
    the length of the range. *)
Definition quickSort (low high : Z) : M unit :=
  quickSort_fuel (Z.to_nat (high - low)) low high.

(** The array on its own, with an empty trace. *)
Definition fresh (a : list Z) : state := State a [].

Definition sort_array (a : list Z) (low high : Z) : option (list Z) :=
  match quickSort low high (fresh a) with
  | Ok _ s => Some (numbers s)
  | Fault _ => None
  end.

(** ** Reading the array in specifications *)

Definition len (a : list Z) : Z := Z.of_nat (length a).

(** Total version of [get], for indices known to be inside the array. *)
Definition sel (a : list Z) (i : Z) : Z := default 0 (a !! Z.to_nat i).

(** The values at indices [low..high], in order. *)
Definition slice (a : list Z) (low high : Z) : list Z :=
  take (Z.to_nat (high + 1 - low)) (drop (Z.to_nat low) a).

(** Adjacent elements of [low..high] are in non-decreasing order. *)
Definition sorted_range (a : list Z) (low high : Z) : Prop :=
  ∀ i, low ≤ i < high → sel a i ≤ sel a (i + 1).

(** An event stays inside the index range [low..high]. *)
Definition within (low high : Z) (e : event) : Prop :=
  match e with
  | Load i | Store i => low ≤ i ≤ high
  | Task l h => low ≤ l ∧ h ≤ high
  end.

(** The step from [s] to [s'] rearranges the array, leaves every cell outside
    [low..high] as it was, and performs only events inside [low..high]. *)
Record touches (low high : Z) (s s' : state) : Prop := Touches {
  touches_perm : numbers s' ≡ₚ numbers s;
  touches_frame : ∀ k : nat, ¬ (low ≤ Z.of_nat k ≤ high) → numbers s' !! k = numbers s !! k;
  touches_trace : ∃ evs, trace s' = evs ++ trace s ∧ Forall (within low high) evs
}.

(** The pivot of a range: the value at its midpoint when the step begins. *)
Definition pivot_of (s : state) (low high : Z) : Z :=
  sel (numbers s) ((low + high) `div` 2).

(** The state [s'] and the cursors [(nl, nh)] the partition step of
    [low..high] ends with, when started in [s]. *)
Record partitioned (low high : Z) (s s' : state) (nl nh : Z) : Prop := Partitioned {
  pd_touches : touches low high s s';
  pd_left : ∀ k, low ≤ k < nl → sel (numbers s') k ≤ pivot_of s low high;
  pd_right : ∀ k, nh < k ≤ high → pivot_of s low high ≤ sel (numbers s') k;
  pd_cross : nh < nl;
  pd_gap : nl ≤ nh + 2;
  pd_low : low < nl;
  pd_high : nh < high
}.

(** What holds of the array and the cursors each time the condition of the
    partition loop of [low..high] is tested; [p] is the pivot and [s0] the
    state in which the loop was entered. *)
Record part_inv (low high p : Z) (s0 s : state) (nl nh : Z) : Prop := PartInv {
  pi_touches : touches low high s0 s;
  pi_low : low ≤ nl;
  pi_high : nh ≤ high;
  pi_left : ∀ k, low ≤ k < nl → sel (numbers s) k ≤ p;
  pi_right : ∀ k, nh < k ≤ high → p ≤ sel (numbers s) k;
  pi_up : nl ≤ nh → ∃ k, nl ≤ k ≤ high ∧ p ≤ sel (numbers s) k;
  pi_down : nl ≤ nh → ∃ k, low ≤ k ≤ nh ∧ sel (numbers s) k ≤ p;
  pi_gap : nl ≤ nh + 2;
  pi_moved :
    (nl = low ∧ nh = high ∧
     ∃ m, low ≤ m ≤ high ∧ m < INT_MAX ∧ sel (numbers s) m = p)
    ∨ (low < nl ∧ nh < high)
}.

(** What a run on [low..high] started in [s] may end with: either the range
    is sorted in place, or the run stopped at a load below the array, which
    needs an upper index beyond [HALF_MAX]. *)
Definition sort_post (low high : Z) (s : state) (r : outcome unit) : Prop :=
  match r with
  | Ok _ s' => touches low high s s' ∧ sorted_range (numbers s') low high
  | Fault f => HALF_MAX < high ∧ ∃ i, f = OutOfBounds i ∧ i < 0
  end.

(** A call [quickSort(numbers, low, high)] with [int] arguments and
    [0 ≤ low], [high ≤ n - 1], where [n] is the length of the array. *)
Definition valid_call (s : state) (low high : Z) : Prop :=
  is_int low ∧ is_int high ∧ 0 ≤ low ∧ high ≤ len (numbers s) - 1.

(** The array of the specification's concrete scenario. *)
Definition scenario : state := fresh [5; 3; 8; 1; 9; 2].

(** Discharges [valid_call] and [is_int] goals on concrete arrays. *)
Ltac concrete_call :=
  unfold valid_call, is_int, INT_MIN, INT_MAX, HALF_MAX, len; simpl; lia.

(** An array whose elements are all equal. *)
Definition sevens : state := fresh [7; 7; 7; 7; 7].

(** An array of [2^30 + 2] zeros. *)
Definition big_array : list Z := replicate (Z.to_nat 1073741826) 0.

(** ** The rest of the program: text, files and [main] *)

(** File contents and command-line arguments are sequences of characters. *)
Abbreviation text := (list ascii).

(** [#define INFILE], [#define OUTFILE] and [#define N] (the name [N] is
    taken in Rocq). *)
Definition INFILE : string := "input_numbers.csv".
Definition OUTFILE : string := "sorted_numbers.csv".
Definition DEFAULT_N : Z := 100.

Definition comma : ascii := ","%char.
Definition minus : ascii := "-"%char.
Definition plus : ascii := "+"%char.

(** *** Library behaviour the program relies on *)

(** The character of a decimal digit and back. *)
Definition digit_char (d : Z) : ascii := ascii_of_nat (Z.to_nat (48 + d)).
Definition digit_val (c : ascii) : option Z :=
  let n := Z.of_nat (nat_of_ascii c) in
  if bool_decide (48 ≤ n ≤ 57) then Some (n - 48) else None.

(** [outfile << x] for a non-negative [x]: its decimal digits, most
    significant first, no leading zero. *)
Fixpoint show_nat_fuel (fuel : nat) (x : Z) : text :=
  match fuel with
  | O => []
  | S fuel' =>
      if bool_decide (x < 10) then [digit_char x]
      else show_nat_fuel fuel' (x `div` 10) ++ [digit_char (x `mod` 10)]
  end.

(** A number has no more decimal digits than binary ones. *)
Definition show_nat (x : Z) : text := show_nat_fuel (S (Z.to_nat (Z.log2 x))) x.

(** [outfile << x] for an [int] with the stream's default flags. *)
Definition show_int (x : Z) : text :=
  if bool_decide (x < 0) then minus :: show_nat (- x) else show_nat x.

(** [isspace] in the C locale. *)
Definition is_space (c : ascii) : bool :=
  let n := Z.of_nat (nat_of_ascii c) in
  bool_decide (n = 32 ∨ 9 ≤ n ≤ 13).

Fixpoint skip_space (s : text) : text :=
  match s with
  | c :: s' => if is_space c then skip_space s' else s
  | [] => []
  end.

(** The value of the longest prefix of digits, continuing from [acc]. *)
Fixpoint digits_value (s : text) (acc : Z) : Z :=
  match s with
  | c :: s' =>
      match digit_val c with
      | Some d => digits_value s' (10 * acc + d)
      | None => acc
      end
  | [] => acc
  end.

(** What goes wrong outside the array routine of the first part. *)
Inductive failure : Type :=
  | ArrayFault (f : fault)
  | InvalidArgument
  | OutOfRange
  | BadAlloc.

Inductive parse : Type :=
  | Value (v : Z)
  | Throw (e : failure).

(** [std::stoi(str)]: skips leading white space, takes an optional sign and
    then as many decimal digits as there are, ignores what follows; throws
    [invalid_argument] when there is no digit and [out_of_range] when the
    value is not an [int]. *)
Definition stoi (str : text) : parse :=
  let s := skip_space str in
  let '(negative, s) :=
    match s with
    | c :: s' =>
        if bool_decide (c = minus) then (true, s')
        else if bool_decide (c = plus) then (false, s')
        else (false, s)
    | [] => (false, [])
    end in
  match s with
  | c :: _ =>
      if bool_decide (is_Some (digit_val c)) then
        let v := digits_value s 0 in
        let v := if negative then - v else v in
        if bool_decide (is_int v) then Value v else Throw OutOfRange
      else Throw InvalidArgument
  | [] => Throw InvalidArgument
  end.

(** [getline(infile, line, delim)] on what is left of the file: fails when
    nothing is left; otherwise yields the characters before the first
    [delim] (or all of them when there is none) and what is left after it. *)
Fixpoint break_at (delim : ascii) (s : text) : text * text :=
  match s with
  | [] => ([], [])
  | c :: s' =>
      if bool_decide (c = delim) then ([], s')
      else let '(line, rest) := break_at delim s' in (c :: line, rest)
  end.

Definition getline (rest : text) (delim : ascii) : option (text * text) :=
  match rest with
  | [] => None
  | _ => Some (break_at delim rest)
  end.

(** *** The state of the whole program *)

(** The array with its trace, the files by name, which names can be opened
    for writing, the values the successive calls of [rand()] return (none is
    negative) with the number of calls made, and the values found in freshly
    allocated cells. *)
Record world : Type := World {
  heap : state;
  disk : gmap string text;
  writable : string → bool;
  rand_seq : nat → N;
  rand_calls : nat;
  junk : nat → Z
}.

Inductive answer (A : Type) : Type :=
  | Done (x : A) (w : world)
  | Raised (e : failure).
Arguments Done {A} x w.
Arguments Raised {A} e.

Definition P (A : Type) : Type := world → answer A.

Definition raise {A} (e : failure) : P A := λ _, Raised e.

#[global] Instance P_ret : MRet P := λ A x w, Done x w.
#[global] Instance P_bind : MBind P :=
  λ A B k m w, match m w with
               | Done x w' => k x w'
               | Raised e => Raised e
               end.

Definition set_heap (s : state) (w : world) : world :=
  World s (disk w) (writable w) (rand_seq w) (rand_calls w) (junk w).
Definition set_disk (d : gmap string text) (w : world) : world :=
  World (heap w) d (writable w) (rand_seq w) (rand_calls w) (junk w).

(** An array operation of the first part, run on the program's array. *)
Definition on_array {A} (m : M A) : P A :=
  λ w, match m (heap w) with
       | Ok x s => Done x (set_heap s w)
       | Fault f => Raised (ArrayFault f)
       end.

(** [rand()] *)
Definition rand : P Z :=
  λ w, Done (Z.of_N (rand_seq w (rand_calls w)))
            (World (heap w) (disk w) (writable w) (rand_seq w)
                   (S (rand_calls w)) (junk w)).

(** [ofstream outfile(filename)]: an open for writing empties the file;
    the result tells whether the file is open. *)
Definition open_out (filename : string) : P bool :=
  λ w, if writable w filename
       then Done true (set_disk (<[filename := []]> (disk w)) w)
       else Done false w.

(** [outfile << ...] on an open file. *)
Definition put (filename : string) (t : text) : P unit :=
  λ w, Done tt (set_disk (<[filename := default [] (disk w !! filename) ++ t]> (disk w)) w).

(** [ifstream infile(filename)]: the contents when the file can be opened. *)
Definition open_in (filename : string) : P (option text) :=
  λ w, Done (disk w !! filename) w.

Definition throwing (r : parse) : P Z :=
  match r with
  | Value v => mret v
  | Throw e => raise e
  end.

(** *** The functions *)

(** Lines 41-43. *)
Fixpoint generate_loop (fuel : nat) (n i : Z) : P unit :=
  if bool_decide (i < n) then
    match fuel with
    | O => raise (ArrayFault OutOfFuel)
    | S fuel' =>
        r ← rand ;
        on_array (store i (r `rem` 1000)) ;;
        generate_loop fuel' n (int_succ i)
    end
  else mret tt.

(** Lines 40-44. *)
Definition generate_random_numbers (n : Z) : P unit :=
  generate_loop (Z.to_nat n) n 0.

(** Lines 59-64. *)
Fixpoint write_loop (fuel : nat) (filename : string) (n i : Z) : P unit :=
  if bool_decide (i < n) then
    match fuel with
    | O => raise (ArrayFault OutOfFuel)
    | S fuel' =>
        x ← on_array (load i) ;
        put filename (show_int x) ;;
        (if bool_decide (i < int_pred n) then put filename [comma] else mret tt) ;;
        write_loop fuel' filename n (int_succ i)
    end
  else mret tt.

(** Lines 56-70. *)
Definition write_numbers_to_file (n : Z) (filename : string) : P unit :=
  is_open ← open_out filename ;
  if is_open : bool then write_loop (Z.to_nat n) filename n 0 else mret tt.

(** Lines 87-89; [rest] is what is left of the file.  Every round takes at
    least one character off it. *)
Fixpoint read_loop (fuel : nat) (rest : text) (count : Z) : P Z :=
  match getline rest comma with
  | Some (line, rest') =>
      match fuel with
      | O => raise (ArrayFault OutOfFuel)
      | S fuel' =>
          v ← throwing (stoi line) ;
          on_array (store count v) ;;
          read_loop fuel' rest' (int_succ count)
      end
  | None => mret count
  end.

(** Lines 82-96. *)
Definition read_numbers_from_file (filename : string) : P Z :=
  infile ← open_in filename ;
  match infile with
  | Some contents => read_loop (length contents) contents 0
  | None => mret (-1)
  end.

(** [new int[n]]: a negative length throws; the cells hold whatever was
    there. *)
Definition new_array (n : Z) : P unit :=
  λ w, if bool_decide (n < 0) then Raised BadAlloc
       else Done tt (set_heap (State (junk w <$> seq 0 (Z.to_nat n)) (trace (heap w))) w).

(** [delete[] numbers] *)
Definition delete_array : P unit :=
  λ w, Done tt (set_heap (State [] (trace (heap w))) w).

(** Lines 154-164: the number of integers asked for. *)
Definition requested (argv : list text) : parse :=
  if bool_decide (1 < Z.of_nat (length argv))
  then stoi (default [] (argv !! 1%nat))
  else Value DEFAULT_N.

(** Lines 169-203, once [n] is known. *)
Definition run (n : Z) : P Z :=
  new_array n ;;
  generate_random_numbers n ;;
  write_numbers_to_file n INFILE ;;
  count ← read_numbers_from_file INFILE ;
  (if bool_decide (count > 0) then
     on_array (quickSort 0 (int_pred count)) ;;
     write_numbers_to_file count OUTFILE
   else mret tt) ;;
  delete_array ;;
  mret 0.

(** Lines 150-204.  Console output and the clock are left out. *)
Definition main (argv : list text) : P Z :=
  match requested argv with
  | Throw _ => mret 1
  | Value n => run n
  end.

(** *** Reading the program in specifications *)

Definition is_digit (c : ascii) : Prop := is_Some (digit_val c).

(** The text of a list of numbers: printed in order, a comma between each
    two. *)
Fixpoint csv (l : list Z) : text :=
  match l with
  | [] => []
  | x :: l' => show_int x ++ match l' with [] => [] | _ :: _ => comma :: csv l' end
  end.

(** The number stored for a call of [rand()] that returns [r], and the
    numbers stored for [m] successive calls, the first of them call number
    [start] of the sequence [rs]. *)
Definition drawn (rs : nat → N) (k : nat) : Z := Z.of_N (rs k) `rem` 1000.
Definition generated (rs : nat → N) (start m : nat) : list Z :=
  drawn rs <$> seq start m.

(** The world with another array and that many more calls of [rand()]. *)
Definition with_array (w : world) (a : list Z) (tr : list event) (calls : nat) : world :=
  World (State a tr) (disk w) (writable w) (rand_seq w) (rand_calls w + calls) (junk w).

(** What [run] does once the count has been read back. *)
Definition run_rest (count : Z) : P Z :=
  (if bool_decide (count > 0) then
     on_array (quickSort 0 (int_pred count)) ≫= λ _,
     write_numbers_to_file count OUTFILE
   else mret tt) ≫= λ _,
  delete_array ≫= λ _, mret 0.

(** Worlds and arguments to try the program on.  [rand()] returns 13, 7932,
    15851, ...; fresh cells hold 77.  In [sample_world] the disk is empty
    and every file can be written; in [stale_world] the input file holds
    the text of [old] and cannot be written; in [closed_world] the disk is
    empty and no file can be written. *)
Definition sample_rand (k : nat) : N := (N.of_nat k * 7919 + 13)%N.
Definition sample_world (a : list Z) : world :=
  World (fresh a) ∅ (λ _, true) sample_rand 0 (λ _, 77).
Definition stale_world (a : list Z) (old : list Z) : world :=
  World (fresh a) {[INFILE := csv old]} (λ f, bool_decide (f ≠ INFILE))
        sample_rand 0 (λ _, 77).
Definition closed_world : world :=
  World (fresh []) ∅ (λ _, false) sample_rand 0 (λ _, 77).
Definition arg (s : string) : text := String.list_ascii_of_string s.

(** A world whose disk holds a file the program does not know. *)
Definition kept_world : world :=
  World (fresh []) {["notes.txt" := arg "keep"]} (λ _, true) sample_rand 0 (λ _, 77).

(** Unfolds the projections of a world that has just been built. *)
Ltac world_simpl :=
  cbn [heap disk writable rand_seq rand_calls junk numbers trace
       set_heap set_disk with_array] in *.

(** * Proofs *)

Example sort_scenario :
  sort_array [5; 3; 8; 1; 9; 2] 0 5 = Some [1; 2; 3; 5; 8; 9].
Proof. vm_compute. reflexivity. Qed.

Example sort_duplicates :
  sort_array [4; 2; 4; 1; 4] 0 4 = Some [1; 2; 4; 4; 4].
Proof. vm_compute. reflexivity. Qed.

(** ** Integer facts *)

Lemma wrap_id z : is_int z → wrap z = z.
Proof.
  unfold is_int, wrap, INT_MIN, INT_MAX. intros Hz.
  rewrite Z.mod_small; lia.
Qed.

Lemma int_succ_id z : INT_MIN ≤ z < INT_MAX → int_succ z = z + 1.
Proof. intros Hz. apply wrap_id. unfold is_int. lia. Qed.

Lemma int_pred_id z : INT_MIN < z ≤ INT_MAX → int_pred z = z - 1.
Proof. intros Hz. apply wrap_id. unfold is_int. lia. Qed.

(** Without overflow the midpoint lies in the range. *)
Lemma midpoint_in low high :
  0 ≤ low → low ≤ high → low + high ≤ INT_MAX →
  low ≤ int_half (int_add high low) ≤ high ∧
  (low < high → int_half (int_add high low) < high) ∧
  int_half (int_add high low) < INT_MAX.
Proof.
  intros H0 Hle Hsum. unfold int_add, int_half.
  rewrite wrap_id by (unfold is_int, INT_MIN, INT_MAX in *; lia).
  rewrite Z.quot_div_nonneg by lia.
  unfold INT_MAX in *.
  assert (2 * ((high + low) `div` 2) ≤ high + low < 2 * ((high + low) `div` 2) + 2).
  { pose proof (Z.div_mod (high + low) 2).
    pose proof (Z.mod_pos_bound (high + low) 2). lia. }
  lia.
Qed.

(** With overflow the sum wraps to a negative number and so does its half. *)
Lemma midpoint_overflow low high :
  0 ≤ low → low ≤ high → high ≤ INT_MAX → INT_MAX < low + high →
  int_half (int_add high low) < 0.
Proof.
  intros H0 Hle Hhi Hsum. unfold int_add, int_half, wrap, INT_MIN, INT_MAX in *.
  replace (high + low - -2147483648) with (high + low - 2147483648 + 1 * 4294967296) by lia.
  rewrite Z.mod_add by lia.
  rewrite Z.mod_small by lia.
  assert (Hq : (high + low - 2147483648 + -2147483648) `quot` 2 ≤ (-2) `quot` 2)
    by (apply Z.quot_le_mono; lia).
  change ((-2) `quot` 2) with (-1) in Hq. lia.
Qed.

(** ** Array facts *)

Lemma get_inside a i : 0 ≤ i < len a → get a i = Some (sel a i).
Proof.
  unfold get, sel, len. intros Hi.
  rewrite bool_decide_eq_true_2 by lia.
  destruct (lookup_lt_is_Some_2 a (Z.to_nat i)) as [v Hv]; [lia|].
  by rewrite Hv.
Qed.

Lemma get_outside a i : ¬ (0 ≤ i < len a) → get a i = None.
Proof.
  unfold get, len. intros Hi. case_bool_decide; [|done].
  apply lookup_ge_None_2. lia.
Qed.

Lemma get_Some a i v : get a i = Some v → 0 ≤ i < len a ∧ sel a i = v.
Proof.
  intros Hg. destruct (decide (0 ≤ i < len a)) as [Hi|Hi].
  - rewrite get_inside in Hg by done. by simplify_eq.
  - by rewrite get_outside in Hg.
Qed.

Lemma lookup_sel a (k : nat) : (k < length a)%nat → a !! k = Some (sel a (Z.of_nat k)).
Proof.
  intros Hk. unfold sel. rewrite Nat2Z.id.
  destruct (lookup_lt_is_Some_2 a k Hk) as [v Hv]. by rewrite Hv.
Qed.

Lemma len_upd a i v : len (upd a i v) = len a.
Proof. unfold len, upd. by rewrite length_insert. Qed.

Lemma sel_upd_eq a i v : 0 ≤ i < len a → sel (upd a i v) i = v.
Proof.
  unfold sel, upd, len. intros Hi.
  rewrite list_lookup_insert_eq by lia. done.
Qed.

Lemma sel_upd_ne a i k v : 0 ≤ i → 0 ≤ k → k ≠ i → sel (upd a i v) k = sel a k.
Proof.
  unfold sel, upd. intros Hi Hk Hne.
  rewrite list_lookup_insert_ne by lia. done.
Qed.

Lemma sel_elem_of a i : 0 ≤ i < len a → sel a i ∈ a.
Proof.
  intros Hi. apply list_elem_of_lookup. exists (Z.to_nat i).
  unfold len in Hi. rewrite lookup_sel by lia. f_equal. f_equal. lia.
Qed.

(** Exchanging two cells permutes the array. *)
Lemma insert_head_perm (l : list Z) (j : nat) (x y : Z) :
  l !! j = Some y → y :: <[j := x]> l ≡ₚ x :: l.
Proof.
  revert j. induction l as [|z l IH]; intros [|j] Hj; simplify_eq/=.
  - apply perm_swap.
  - rewrite (perm_swap z y). rewrite IH by done. apply perm_swap.
Qed.

Lemma insert_swap_perm (l : list Z) (i j : nat) (x y : Z) :
  l !! i = Some x → l !! j = Some y →
  <[j := x]> (<[i := y]> l) ≡ₚ l.
Proof.
  revert i j. induction l as [|z l IH]; intros i j Hi Hj; [done|].
  destruct i as [|i], j as [|j]; simplify_eq/=.
  - done.
  - by apply insert_head_perm.
  - by apply insert_head_perm.
  - f_equiv. by apply IH.
Qed.

(** ** Slices *)

Lemma slice_split a low high :
  a = take (Z.to_nat low) a ++ slice a low high
        ++ drop (Z.to_nat (high + 1 - low)) (drop (Z.to_nat low) a).
Proof. unfold slice. by rewrite !take_drop. Qed.

Lemma slice_lookup a low high (k : nat) :
  0 ≤ low → Z.of_nat k ≤ high - low →
  slice a low high !! k = a !! Z.to_nat (low + Z.of_nat k).
Proof.
  intros Hlow Hk. unfold slice.
  rewrite lookup_take_lt by lia. rewrite lookup_drop. f_equal. lia.
Qed.

Lemma slice_length a low high :
  0 ≤ low → low ≤ high + 1 → high < len a →
  length (slice a low high) = Z.to_nat (high + 1 - low).
Proof.
  unfold slice, len. intros. rewrite length_take, length_drop. lia.
Qed.

Lemma sel_in_slice a low high k :
  0 ≤ low → low ≤ k ≤ high → k < len a → sel a k ∈ slice a low high.
Proof.
  intros Hlow Hk Hlen. apply list_elem_of_lookup. exists (Z.to_nat (k - low)).
  rewrite slice_lookup by lia. unfold len in Hlen.
  replace (Z.to_nat (low + Z.of_nat (Z.to_nat (k - low)))) with (Z.to_nat k) by lia.
  rewrite lookup_sel by lia. f_equal. f_equal. lia.
Qed.

Lemma slice_in_sel a low high x :
  0 ≤ low → x ∈ slice a low high →
  ∃ k, low ≤ k ≤ high ∧ k < len a ∧ sel a k = x.
Proof.
  intros Hlow [k Hk]%list_elem_of_lookup.
  pose proof (lookup_lt_Some _ _ _ Hk) as Hlt.
  unfold slice in Hlt. rewrite length_take, length_drop in Hlt.
  rewrite slice_lookup in Hk by lia.
  pose proof (lookup_lt_Some _ _ _ Hk) as Hlt'.
  exists (low + Z.of_nat k). unfold len, sel. rewrite Hk. simpl. lia.
Qed.

(** ** Running the monad *)

Lemma bind_run {A B} (m : M A) (k : A → M B) s :
  (m ≫= k) s = match m s with Ok x s' => k x s' | Fault f => Fault f end.
Proof. reflexivity. Qed.

Lemma load_inside i s :
  0 ≤ i < len (numbers s) →
  load i s = Ok (sel (numbers s) i) (State (numbers s) (Load i :: trace s)).
Proof. intros Hi. unfold load. by rewrite get_inside. Qed.

Lemma load_outside i s :
  ¬ (0 ≤ i < len (numbers s)) → load i s = Fault (OutOfBounds i).
Proof. intros Hi. unfold load. by rewrite get_outside. Qed.

Lemma store_inside i v s :
  0 ≤ i < len (numbers s) →
  store i v s = Ok tt (State (upd (numbers s) i v) (Store i :: trace s)).
Proof. intros Hi. unfold store. by rewrite get_inside. Qed.

(** ** The [touches] relation *)

Lemma touches_refl low high s : touches low high s s.
Proof. split; [done|done|]. exists []. by split. Qed.

Lemma touches_trans low high s1 s2 s3 :
  touches low high s1 s2 → touches low high s2 s3 → touches low high s1 s3.
Proof.
  intros [P1 F1 (e1 & T1 & W1)] [P2 F2 (e2 & T2 & W2)]. split.
  - by rewrite P2.
  - intros k Hk. by rewrite F2, F1.
  - exists (e2 ++ e1). rewrite T2, T1, (assoc_L (++)). split; [done|].
    by apply Forall_app.
Qed.

Lemma within_mono l h low high e :
  low ≤ l → h ≤ high → within l h e → within low high e.
Proof. destruct e; simpl; lia. Qed.

Lemma touches_mono l h low high s s' :
  low ≤ l → h ≤ high → touches l h s s' → touches low high s s'.
Proof.
  intros Hl Hh [P F (e & T & W)]. split; [done| |].
  - intros k Hk. apply F. lia.
  - exists e. split; [done|]. eapply Forall_impl; [done|].
    intros x. by apply within_mono.
Qed.

Lemma touches_event low high s e :
  within low high e → touches low high s (State (numbers s) (e :: trace s)).
Proof.
  intros He. split; [done|done|]. exists [e]. split; [done|].
  by apply Forall_singleton.
Qed.

Lemma touches_len low high s s' :
  touches low high s s' → len (numbers s') = len (numbers s).
Proof. intros [P _ _]. unfold len. by rewrite P. Qed.

Lemma touches_sel low high s s' k :
  touches low high s s' → 0 ≤ k → ¬ (low ≤ k ≤ high) →
  sel (numbers s') k = sel (numbers s) k.
Proof.
  intros [_ F _] Hk Hout. unfold sel. rewrite F; [done|]. lia.
Qed.

(** Inside the range the values are permuted among themselves. *)
Lemma touches_slice low high s s' :
  touches low high s s' →
  slice (numbers s') low high ≡ₚ slice (numbers s) low high.
Proof.
  intros [P F _].
  assert (Hlen : length (numbers s') = length (numbers s)) by (by rewrite P).
  rewrite (slice_split (numbers s) low high) in P.
  rewrite (slice_split (numbers s') low high) in P.
  assert (Hpre : take (Z.to_nat low) (numbers s') = take (Z.to_nat low) (numbers s)).
  { apply list_eq. intros k. destruct (decide (k < Z.to_nat low)%nat).
    - rewrite !lookup_take_lt by done. apply F. lia.
    - rewrite !lookup_take_ge by lia. done. }
  assert (Hsuf : drop (Z.to_nat (high + 1 - low)) (drop (Z.to_nat low) (numbers s'))
               = drop (Z.to_nat (high + 1 - low)) (drop (Z.to_nat low) (numbers s))).
  { apply list_eq. intros k. rewrite !lookup_drop. apply F. lia. }
  rewrite Hpre, Hsuf in P.
  apply (inj (app _)) in P. by apply (inj (λ l, l ++ _)) in P.
Qed.

(** A bound that holds on the whole range survives the rearrangement. *)
Lemma touches_bound (P : Z → Prop) low high s s' :
  touches low high s s' → 0 ≤ low → high < len (numbers s) →
  (∀ k, low ≤ k ≤ high → P (sel (numbers s) k)) →
  ∀ k, low ≤ k ≤ high → P (sel (numbers s') k).
Proof.
  intros Ht Hlow Hhigh HP k Hk.
  pose proof (touches_len _ _ _ _ Ht) as Hlen.
  assert (Hin : sel (numbers s') k ∈ slice (numbers s') low high)
    by (apply sel_in_slice; lia).
  rewrite (touches_slice _ _ _ _ Ht) in Hin.
  apply slice_in_sel in Hin as (j & Hj & _ & <-); [|done]. by apply HP.
Qed.

(** ** The two scans *)

(** The upward scan stops at the first cell that is not below the pivot; a
    cell [k] known to hold such a value bounds it. *)
Lemma scan_up_fuel_ok fuel p i k s :
  0 ≤ i ≤ k → k < len (numbers s) → k ≤ INT_MAX → p ≤ sel (numbers s) k →
  (Z.to_nat (k - i) < fuel)%nat →
  ∃ i' s', scan_up_fuel fuel p i s = Ok i' s' ∧
    touches i i' s s' ∧ numbers s' = numbers s ∧ i ≤ i' ≤ k ∧
    (∀ j, i ≤ j < i' → sel (numbers s) j < p) ∧ p ≤ sel (numbers s) i'.
Proof.
  revert i s. induction fuel as [|fuel IH]; intros i s Hi Hk Hmax Hp Hfuel; [lia|].
  simpl. rewrite bind_run, load_inside by lia.
  case_bool_decide as Hlt.
  - assert (i < k) by (destruct (decide (i = k)); [subst; lia|lia]).
    rewrite int_succ_id by (unfold INT_MIN; lia).
    destruct (IH (i + 1) (State (numbers s) (Load i :: trace s)))
      as (i' & s' & Hrun & Ht & Hm & Hi' & Hbelow & Hstop); simpl; try done; try lia.
    exists i', s'. split; [done|]. split; [|split; [done|split; [lia|split; [|done]]]].
    + eapply touches_trans.
      * apply (touches_event i i' s (Load i)). simpl. lia.
      * eapply touches_mono; [| |done]; lia.
    + intros j Hj. destruct (decide (j = i)) as [->|]; [done|]. apply Hbelow. lia.
  - exists i, (State (numbers s) (Load i :: trace s)). split; [done|].
    split; [apply touches_event; simpl; lia|].
    split; [done|]. split; [lia|]. split; [intros; lia|lia].
Qed.

(** The downward scan stops at the first cell that is not above the pivot. *)
Lemma scan_down_fuel_ok fuel p j k s :
  0 ≤ k ≤ j → j < len (numbers s) → j ≤ INT_MAX → sel (numbers s) k ≤ p →
  (Z.to_nat (j - k) < fuel)%nat →
  ∃ j' s', scan_down_fuel fuel p j s = Ok j' s' ∧
    touches j' j s s' ∧ numbers s' = numbers s ∧ k ≤ j' ≤ j ∧
    (∀ i, j' < i ≤ j → p < sel (numbers s) i) ∧ sel (numbers s) j' ≤ p.
Proof.
  revert j s. induction fuel as [|fuel IH]; intros j s Hj Hlen Hmax Hp Hfuel; [lia|].
  simpl. rewrite bind_run, load_inside by lia.
  case_bool_decide as Hgt.
  - assert (k < j) by (destruct (decide (j = k)); [subst; lia|lia]).
    rewrite int_pred_id by (unfold INT_MIN; lia).
    destruct (IH (j - 1) (State (numbers s) (Load j :: trace s)))
      as (j' & s' & Hrun & Ht & Hm & Hj' & Habove & Hstop); simpl; try done; try lia.
    exists j', s'. split; [done|]. split; [|split; [done|split; [lia|split; [|done]]]].
    + eapply touches_trans.
      * apply (touches_event j' j s (Load j)). simpl. lia.
      * eapply touches_mono; [| |done]; lia.
    + intros i Hi. destruct (decide (i = j)) as [->|]; [lia|]. apply Habove. lia.
  - exists j, (State (numbers s) (Load j :: trace s)). split; [done|].
    split; [apply touches_event; simpl; lia|].
    split; [done|]. split; [lia|]. split; [intros; lia|lia].
Qed.

Lemma scan_up_ok p i k s :
  0 ≤ i ≤ k → k < len (numbers s) → k ≤ INT_MAX → p ≤ sel (numbers s) k →
  ∃ i' s', scan_up p i s = Ok i' s' ∧
    touches i i' s s' ∧ numbers s' = numbers s ∧ i ≤ i' ≤ k ∧
    (∀ j, i ≤ j < i' → sel (numbers s) j < p) ∧ p ≤ sel (numbers s) i'.
Proof.
  intros. apply scan_up_fuel_ok; try done. unfold cells, len in *. lia.
Qed.

Lemma scan_down_ok p j k s :
  0 ≤ k ≤ j → j < len (numbers s) → j ≤ INT_MAX → sel (numbers s) k ≤ p →
  ∃ j' s', scan_down p j s = Ok j' s' ∧
    touches j' j s s' ∧ numbers s' = numbers s ∧ k ≤ j' ≤ j ∧
    (∀ i, j' < i ≤ j → p < sel (numbers s) i) ∧ sel (numbers s) j' ≤ p.
Proof.
  intros. apply scan_down_fuel_ok; try done. unfold cells, len in *. lia.
Qed.

(** ** The swap *)

Lemma swap_ok i j s :
  0 ≤ i → i ≤ j → j < len (numbers s) →
  ∃ s', swap i j s = Ok tt s' ∧ touches i j s s' ∧
    sel (numbers s') i = sel (numbers s) j ∧ sel (numbers s') j = sel (numbers s) i ∧
    (∀ k, 0 ≤ k → k ≠ i → k ≠ j → sel (numbers s') k = sel (numbers s) k).
Proof.
  intros Hi Hij Hj. unfold swap.
  rewrite bind_run, load_inside by lia.
  rewrite bind_run, load_inside by (simpl; lia). simpl.
  rewrite bind_run, store_inside by (simpl; lia). simpl.
  rewrite store_inside by (simpl; rewrite len_upd; lia). simpl.
  eexists. split; [done|]. simpl. split; [split; simpl|].
  - unfold upd. apply insert_swap_perm.
    + unfold len in *. rewrite lookup_sel by lia. f_equal. f_equal. lia.
    + unfold len in *. rewrite lookup_sel by lia. f_equal. f_equal. lia.
  - intros k Hk. unfold upd. rewrite !list_lookup_insert_ne by lia. done.
  - exists [Store j; Store i; Load j; Load i]. split; [done|].
    repeat constructor; simpl; lia.
  - split; [|split].
    + destruct (decide (i = j)) as [->|].
      * rewrite sel_upd_eq by (rewrite len_upd; lia). done.
      * rewrite sel_upd_ne by lia. rewrite sel_upd_eq by lia. done.
    + rewrite sel_upd_eq by (rewrite len_upd; lia). done.
    + intros k Hk Hki Hkj. rewrite !sel_upd_ne by lia. done.
Qed.

(** ** The partition loop *)

Lemma part_loop_eq fuel p nl nh :
  part_loop fuel p nl nh =
  if bool_decide (nl ≤ nh) then
    match fuel with
    | O => fail OutOfFuel
    | S fuel' =>
        scan_up p nl ≫= λ nl1,
        scan_down p nh ≫= λ nh1,
        if bool_decide (nl1 ≤ nh1) then
          swap nl1 nh1 ≫= λ _,
          part_loop fuel' p (int_succ nl1) (int_pred nh1)
        else part_loop fuel' p nl1 nh1
    end
  else mret (nl, nh).
Proof. destruct fuel; reflexivity. Qed.

Section partition_loop.
Variables (low high p : Z) (s0 : state).
Hypothesis Hlow : 0 ≤ low.
Hypothesis Hhigh : high < len (numbers s0).
Hypothesis Hint : high ≤ INT_MAX.

Lemma part_inv_len s nl nh :
  part_inv low high p s0 s nl nh → len (numbers s) = len (numbers s0).
Proof. intros [Ht]. by eapply touches_len. Qed.

(** The cells that stop the two scans. *)
Lemma part_inv_sentinels s nl nh :
  part_inv low high p s0 s nl nh → nl ≤ nh →
  ∃ ku kd, nl ≤ ku ≤ high ∧ p ≤ sel (numbers s) ku ∧
           low ≤ kd ≤ nh ∧ sel (numbers s) kd ≤ p ∧
           (ku < INT_MAX ∨ nh < INT_MAX) ∧
           ((nl = low ∧ nh = high ∧ ku ≤ kd) ∨ (low < nl ∧ nh < high)).
Proof.
  intros I Hle. destruct (pi_moved _ _ _ _ _ _ _ I) as [(-> & -> & m & Hm & Hmax & Hp)|Hmv].
  - exists m, m. repeat split; lia.
  - destruct (pi_up _ _ _ _ _ _ _ I Hle) as (ku & ? & ?).
    destruct (pi_down _ _ _ _ _ _ _ I Hle) as (kd & ? & ?).
    exists ku, kd. repeat split; try done; lia.
Qed.

Lemma part_loop_ok fuel s nl nh :
  part_inv low high p s0 s nl nh → (Z.to_nat (nh + 1 - nl) < fuel)%nat →
  ∃ nl' nh' s', part_loop fuel p nl nh s = Ok (nl', nh') s' ∧
                part_inv low high p s0 s' nl' nh' ∧ nh' < nl'.
Proof.
  revert s nl nh. induction fuel as [|fuel IH]; intros s nl nh I Hfuel; [lia|].
  rewrite part_loop_eq. case_bool_decide as Hle; [|exists nl, nh, s; split; [done|split; [done|lia]]].
  pose proof (part_inv_len _ _ _ I) as Hlen.
  destruct (part_inv_sentinels _ _ _ I Hle)
    as (ku & kd & Hku & Hpu & Hkd & Hpd & Hmax & Hmv).
  destruct (scan_up_ok p nl ku s)
    as (nl1 & s1 & Hrun1 & Ht1 & Hm1 & Hnl1 & Hbelow & Hstop1); try done; try lia.
  destruct (scan_down_ok p nh kd s1)
    as (nh1 & s2 & Hrun2 & Ht2 & Hm2 & Hnh1 & Habove & Hstop2);
    try (rewrite Hm1; done); try (rewrite Hm1; lia); try lia.
  rewrite bind_run, Hrun1, bind_run, Hrun2.
  rewrite Hm1 in *.
  assert (Ht02 : touches low high s0 s2).
  { eapply touches_trans; [apply (pi_touches _ _ _ _ _ _ _ I)|].
    eapply touches_trans; (eapply touches_mono; [| |done]); lia. }
  case_bool_decide as Hswap.
  - (* both cursors stopped on the right side of each other: exchange *)
    destruct (swap_ok nl1 nh1 s2)
      as (s3 & Hrun3 & Ht3 & Hsl & Hsh & Hrest); try (rewrite ?Hm2; lia).
    rewrite Hm2 in *.
    rewrite bind_run, Hrun3.
    rewrite int_succ_id by (unfold INT_MIN; lia).
    rewrite int_pred_id by (unfold INT_MIN; lia).
    apply IH; [|lia]. split.
    + eapply touches_trans; [done|]. eapply touches_mono; [| |done]; lia.
    + lia.
    + lia.
    + intros k Hk. destruct (decide (k = nl1)) as [->|]; [lia|].
      rewrite Hrest by lia. destruct (decide (k < nl)).
      * apply (pi_left _ _ _ _ _ _ _ I). lia.
      * apply Z.lt_le_incl, Hbelow. lia.
    + intros k Hk. destruct (decide (k = nh1)) as [->|]; [lia|].
      rewrite Hrest by lia. destruct (decide (nh < k)).
      * apply (pi_right _ _ _ _ _ _ _ I). lia.
      * apply Z.lt_le_incl, Habove. lia.
    + intros Hle'. exists nh1. split; lia.
    + intros Hle'. exists nl1. split; lia.
    + lia.
    + right. lia.
  - (* the cursors have crossed: the loop test fails next *)
    rewrite part_loop_eq, bool_decide_eq_false_2 by done.
    exists nl1, nh1, s2. split; [done|]. split; [|lia].
    assert (Hleft : ∀ k, low ≤ k < nl1 → sel (numbers s2) k ≤ p).
    { intros k Hk. rewrite Hm2. destruct (decide (k < nl)).
      - apply (pi_left _ _ _ _ _ _ _ I). lia.
      - apply Z.lt_le_incl, Hbelow. lia. }
    assert (Hright : ∀ k, nh1 < k ≤ high → p ≤ sel (numbers s2) k).
    { intros k Hk. rewrite Hm2. destruct (decide (nh < k)).
      - apply (pi_right _ _ _ _ _ _ _ I). lia.
      - apply Z.lt_le_incl, Habove. lia. }
    split; try done; try lia.
    + destruct (decide (nl1 ≤ nh1 + 2)) as [|Hfar]; [done|].
      destruct (decide (nh1 + 1 ≤ nh)) as [Hin|Hout].
      * pose proof (Habove (nh1 + 1)). pose proof (Hleft (nh1 + 1)).
        rewrite Hm2 in *. lia.
      * pose proof (Hbelow (nh + 1)). pose proof (pi_right _ _ _ _ _ _ _ I (nh + 1)). lia.
Qed.
End partition_loop.

(** ** The partition step *)

Lemma int_half_midpoint low high :
  0 ≤ low → low ≤ high → low + high ≤ INT_MAX →
  int_half (int_add high low) = (low + high) `div` 2.
Proof.
  intros. unfold int_half, int_add.
  rewrite wrap_id by (unfold is_int, INT_MIN, INT_MAX in *; lia).
  rewrite Z.quot_div_nonneg by lia. f_equal. lia.
Qed.

Lemma partition_ok low high s :
  0 ≤ low → low ≤ high → high < len (numbers s) → low + high ≤ INT_MAX →
  ∃ nl nh s', partition low high s = Ok (nl, nh) s' ∧
              partitioned low high s s' nl nh.
Proof.
  intros Hlow Hle Hhigh Hsum.
  destruct (midpoint_in low high) as (Hmid & _ & Hmax); try done.
  pose proof (int_half_midpoint low high Hlow Hle Hsum) as Hdiv.
  unfold partition. rewrite bind_run, load_inside by lia.
  set (s1 := State (numbers s) (Load (int_half (int_add high low)) :: trace s)).
  set (p := sel (numbers s) (int_half (int_add high low))).
  assert (Hp : pivot_of s low high = p) by (unfold pivot_of, p; by rewrite Hdiv).
  destruct (part_loop_ok low high p s1 Hlow Hhigh ltac:(unfold INT_MAX in *; lia)
              (S (cells s1)) s1 low high)
    as (nl & nh & s' & Hrun & I & Hcross).
  - split; try lia.
    + apply touches_refl.
    + intros _. exists (int_half (int_add high low)). split; [lia|]. subst p. simpl. lia.
    + intros _. exists (int_half (int_add high low)). split; [lia|]. subst p. simpl. lia.
    + left. split; [done|]. split; [done|].
      exists (int_half (int_add high low)). split; [lia|]. split; [lia|]. done.
  - unfold cells, len in *. simpl. lia.
  - exists nl, nh, s'. split; [done|].
    destruct I as [Ht Hl Hh Hleft Hright _ _ Hgap Hmv].
    split; rewrite ?Hp; try done; try lia.
    eapply touches_trans; [|done]. apply touches_event. simpl. lia.
Qed.

(** When [high + low] does not fit an [int], the pivot is read at a negative
    index. *)
Lemma partition_overflow low high s :
  0 ≤ low → low ≤ high → high ≤ INT_MAX → INT_MAX < low + high →
  partition low high s = Fault (OutOfBounds (int_half (int_add high low)))
  ∧ int_half (int_add high low) < 0.
Proof.
  intros Hlow Hle Hhigh Hsum.
  pose proof (midpoint_overflow low high Hlow Hle Hhigh Hsum) as Hneg.
  split; [|done]. unfold partition. rewrite bind_run, load_outside by lia. done.
Qed.

(** ** The recursion *)

Lemma quickSort_fuel_eq fuel low high :
  quickSort_fuel fuel low high =
  if bool_decide (low >= high) then mret tt
  else
    match fuel with
    | O => fail OutOfFuel
    | S fuel' =>
        partition low high ≫= λ cur,
        spawn low (snd cur) ≫= λ _,
        quickSort_fuel fuel' low (snd cur) ≫= λ _,
        spawn (fst cur) high ≫= λ _,
        quickSort_fuel fuel' (fst cur) high
    end.
Proof. destruct fuel; reflexivity. Qed.

Lemma quickSort_fuel_spec fuel low high s :
  0 ≤ low → high < len (numbers s) → high ≤ INT_MAX →
  (Z.to_nat (high - low) ≤ fuel)%nat →
  sort_post low high s (quickSort_fuel fuel low high s).
Proof.
  revert low high s.
  induction fuel as [|fuel IH]; intros low high s Hlow Hhigh Hint Hfuel;
    rewrite quickSort_fuel_eq; case_bool_decide as Hguard;
    try (split; [apply touches_refl|intros i Hi; lia]); [lia|].
  destruct (decide (low + high ≤ INT_MAX)) as [Hsum|Hsum]; cycle 1.
  { destruct (partition_overflow low high s) as [Hrun Hneg]; try lia.
    rewrite bind_run, Hrun. simpl. split; [unfold HALF_MAX, INT_MAX in *; lia|].
    eauto. }
  destruct (partition_ok low high s) as (nl & nh & s1 & Hrun & Hpd); try lia.
  rewrite bind_run, Hrun. simpl.
  destruct Hpd as [Ht1 Hleft Hright Hcross Hgap Hnl Hnh].
  set (p := pivot_of s low high) in *.
  pose proof (touches_len _ _ _ _ Ht1) as Hlen1.
  rewrite bind_run. simpl.
  set (s1' := State (numbers s1) (Task low nh :: trace s1)).
  assert (Ht1' : touches low high s s1').
  { eapply touches_trans; [done|]. apply touches_event. simpl. lia. }
  rewrite bind_run.
  pose proof (IH low nh s1' Hlow ltac:(simpl; lia) ltac:(lia) ltac:(lia)) as Hl.
  destruct (quickSort_fuel fuel low nh s1') as [[] s2|f]; simpl in Hl; cycle 1.
  { destruct Hl as [Hbig Hf]. split; [lia|done]. }
  destruct Hl as [Ht2 Hsorted2].
  pose proof (touches_len _ _ _ _ Ht2) as Hlen2. simpl in Hlen2.
  rewrite bind_run. simpl.
  set (s2' := State (numbers s2) (Task nl high :: trace s2)).
  pose proof (IH nl high s2' ltac:(lia) ltac:(simpl; lia) Hint ltac:(lia)) as Hr.
  destruct (quickSort_fuel fuel nl high s2') as [[] s3|f]; simpl in Hr; [|done].
  destruct Hr as [Ht3 Hsorted3].
  split.
  - eapply touches_trans; [done|].
    eapply touches_trans; [eapply (touches_mono low nh); [| |done]; lia|].
    eapply touches_trans; [apply (touches_event low high s2 (Task nl high)); simpl; lia|].
    eapply touches_mono; [| |done]; lia.
  - (* the left part stays at most the pivot, the right part at least *)
    assert (Hleft2 : ∀ k, low ≤ k < nl → sel (numbers s2) k ≤ p).
    { intros k Hk. destruct (decide (k ≤ nh)).
      - apply (touches_bound (λ v, v ≤ p) low nh s1' s2); simpl; try done; try lia.
        intros j Hj. apply Hleft. lia.
      - rewrite (touches_sel low nh s1' s2) by (done || lia). simpl. apply Hleft. lia. }
    assert (Hright2 : ∀ k, nh < k ≤ high → p ≤ sel (numbers s2) k).
    { intros k Hk. rewrite (touches_sel low nh s1' s2) by (done || lia).
      simpl. by apply Hright. }
    assert (Hleft3 : ∀ k, low ≤ k < nl → sel (numbers s3) k ≤ p).
    { intros k Hk. rewrite (touches_sel nl high s2' s3) by (done || lia).
      simpl. by apply Hleft2. }
    assert (Hright3 : ∀ k, nh < k ≤ high → p ≤ sel (numbers s3) k).
    { intros k Hk. destruct (decide (nl ≤ k)).
      - apply (touches_bound (λ v, p ≤ v) nl high s2' s3); simpl; try done; try lia.
        intros j Hj. apply Hright2. lia.
      - rewrite (touches_sel nl high s2' s3) by (done || lia). simpl. apply Hright2. lia. }
    intros i Hi. destruct (decide (i + 1 ≤ nh)); [|destruct (decide (nl ≤ i))].
    + rewrite !(touches_sel nl high s2' s3) by (done || lia). simpl.
      apply Hsorted2. lia.
    + apply Hsorted3. lia.
    + etrans; [apply Hleft3|apply Hright3]; lia.
Qed.

(** ** Calls and their outcomes *)

Lemma quickSort_run s low high :
  valid_call s low high → sort_post low high s (quickSort low high s).
Proof.
  intros (_ & [_ Hint] & Hlow & Hhigh). apply quickSort_fuel_spec; lia.
Qed.

(** Up to [HALF_MAX] the call returns. *)
Lemma quickSort_returns s low high :
  valid_call s low high → high ≤ HALF_MAX →
  ∃ s', quickSort low high s = Ok tt s'.
Proof.
  intros Hv Hhalf. pose proof (quickSort_run s low high Hv) as Hr.
  destruct (quickSort low high s) as [[] s'|f]; simpl in Hr; [by exists s'|lia].
Qed.

(** Whenever the call returns, it has sorted the range in place. *)
Lemma quickSort_result s low high s' :
  valid_call s low high → quickSort low high s = Ok tt s' →
  touches low high s s' ∧ sorted_range (numbers s') low high.
Proof.
  intros Hv Hrun. pose proof (quickSort_run s low high Hv) as Hr.
  by rewrite Hrun in Hr.
Qed.

(** The partition step on its own returns exactly when [high + low] fits. *)
Lemma partition_result s low high nl nh s' :
  0 ≤ low → low ≤ high → high ≤ len (numbers s) - 1 → is_int high →
  partition low high s = Ok (nl, nh) s' →
  low + high ≤ INT_MAX ∧ partitioned low high s s' nl nh.
Proof.
  intros Hlow Hle Hhigh [_ Hint] Hrun.
  destruct (decide (low + high ≤ INT_MAX)) as [Hsum|Hsum].
  - split; [done|].
    destruct (partition_ok low high s) as (nl' & nh' & s'' & Hrun' & Hpd); try lia.
    rewrite Hrun in Hrun'. by simplify_eq.
  - destruct (partition_overflow low high s) as [Hrun' _]; try lia.
    by rewrite Hrun in Hrun'.
Qed.

(** A scan does not write. *)
Lemma scan_up_fuel_mem fuel p i s i' s' :
  scan_up_fuel fuel p i s = Ok i' s' → numbers s' = numbers s.
Proof.
  revert i s. induction fuel as [|fuel IH]; intros i s Hrun; [done|].
  simpl in Hrun. rewrite bind_run in Hrun. unfold load in Hrun.
  destruct (get (numbers s) i) as [v|]; [|done].
  case_bool_decide.
  - by apply IH in Hrun.
  - by injection Hrun as _ <-.
Qed.

(** A partition step that ends has loaded both ends of its range, so the
    range lies inside the array. *)
Lemma partition_Ok_inside s low high r s' :
  low ≤ high → partition low high s = Ok r s' →
  0 ≤ low ∧ high ≤ len (numbers s) - 1.
Proof.
  intros Hle Hrun. unfold partition in Hrun. rewrite bind_run in Hrun.
  unfold load in Hrun at 1.
  destruct (get (numbers s) (int_half (int_add high low))) as [p|]; [|done].
  unfold part_while in Hrun.
  rewrite part_loop_eq, bool_decide_eq_true_2 in Hrun by done.
  rewrite bind_run in Hrun.
  destruct (scan_up p low _) as [nl1 s1|] eqn:Hup; [|done].
  assert (Hlow : 0 ≤ low < len (numbers s)).
  { unfold scan_up in Hup. simpl in Hup. rewrite bind_run in Hup.
    unfold load in Hup at 1. simpl in Hup.
    destruct (get (numbers s) low) as [v|] eqn:Hg; [|done].
    by apply get_Some in Hg as [? _]. }
  apply scan_up_fuel_mem in Hup. simpl in Hup.
  rewrite bind_run in Hrun.
  destruct (scan_down p high s1) as [nh1 s2|] eqn:Hdown; [|done].
  unfold scan_down in Hdown. simpl in Hdown. rewrite bind_run in Hdown.
  unfold load in Hdown at 1. rewrite Hup in Hdown.
  destruct (get (numbers s) high) as [v|] eqn:Hg; [|done].
  apply get_Some in Hg as [? _]. lia.
Qed.

(** ** Sorted slices *)

Lemma Sorted_adjacent (l : list Z) :
  (∀ i x y, l !! i = Some x → l !! S i = Some y → x ≤ y) → Sorted Z.le l.
Proof.
  induction l as [|x l IH]; intros Hadj; constructor.
  - apply IH. intros i u v Hu Hv. by apply (Hadj (S i)).
  - destruct l as [|y l]; constructor. by apply (Hadj O).
Qed.

Lemma slice_sorted a low high :
  0 ≤ low → high < len a → sorted_range a low high →
  Sorted Z.le (slice a low high).
Proof.
  intros Hlow Hhigh Hs. apply Sorted_adjacent. intros i x y Hx Hy.
  pose proof (lookup_lt_Some _ _ _ Hy) as Hlt.
  unfold slice in Hlt. rewrite length_take, length_drop in Hlt.
  rewrite slice_lookup in Hx, Hy by lia.
  unfold len in Hhigh.
  pose proof (Hs (low + Z.of_nat i) ltac:(lia)) as Hle.
  unfold sel in Hle.
  replace (Z.to_nat (low + Z.of_nat i + 1)) with (Z.to_nat (low + Z.of_nat (S i)))
    in Hle by lia.
  by rewrite Hx, Hy in Hle.
Qed.

Lemma slice_eq_lookup a a' low high (k : nat) :
  0 ≤ low → low ≤ Z.of_nat k ≤ high →
  slice a' low high = slice a low high → a' !! k = a !! k.
Proof.
  intros Hlow Hk Hin.
  pose proof (slice_lookup a low high (Z.to_nat (Z.of_nat k - low)) Hlow) as E.
  pose proof (slice_lookup a' low high (Z.to_nat (Z.of_nat k - low)) Hlow) as E'.
  replace (Z.to_nat (low + Z.of_nat (Z.to_nat (Z.of_nat k - low)))) with k in E, E' by lia.
  rewrite <- E, <- E' by lia. by rewrite Hin.
Qed.

Lemma slice_frame_eq a a' low high :
  0 ≤ low →
  (∀ k : nat, low ≤ Z.of_nat k ≤ high → a' !! k = a !! k) →
  slice a' low high = slice a low high.
Proof.
  intros Hlow Hin. apply list_eq. intros k. unfold slice.
  destruct (decide (k < Z.to_nat (high + 1 - low))%nat).
  - rewrite !lookup_take_lt, !lookup_drop by done. apply Hin. lia.
  - rewrite !lookup_take_ge by lia. done.
Qed.

(** Two arrays that agree outside [low..high] and on the slice are equal. *)
Lemma slice_ext a a' low high :
  0 ≤ low →
  (∀ k : nat, ¬ (low ≤ Z.of_nat k ≤ high) → a' !! k = a !! k) →
  slice a' low high = slice a low high → a' = a.
Proof.
  intros Hlow Hout Hin. apply list_eq. intros k.
  destruct (decide (low ≤ Z.of_nat k ≤ high)) as [Hk|Hk]; [|by apply Hout].
  by apply (slice_eq_lookup _ _ low high).
Qed.

(** A sorted range is determined by the values it holds. *)
Lemma sorted_slice_unique a a' low high :
  0 ≤ low → high < len a → high < len a' →
  sorted_range a low high → sorted_range a' low high →
  slice a' low high ≡ₚ slice a low high →
  slice a' low high = slice a low high.
Proof.
  intros. apply (Sorted_unique Z.le); [| |done]; by apply slice_sorted.
Qed.

(** ** Properties of [quickSort] *)

Example scenario_valid : valid_call scenario 0 5.
Proof. concrete_call. Qed.

Example sort_all_equal :
  sort_array [7; 7; 7; 7; 7] 0 4 = Some [7; 7; 7; 7; 7].
Proof. vm_compute. reflexivity. Qed.

(** C1 (order).  For every array and every call with [0 ≤ low] and
    [high ≤ n - 1]: when [quickSort(numbers, low, high)] has returned, the
    array has the length it had, so that the cells [low..high] are all
    there, and every adjacent pair of the range is in order: cells [i] and
    [i+1] hold values [x ≤ y], for [low ≤ i < high].  The call does return
    whenever [high ≤ HALF_MAX]. *)
Theorem quickSort_sorted s low high :
  valid_call s low high →
  (high ≤ HALF_MAX → ∃ s', quickSort low high s = Ok tt s') ∧
  (∀ s', quickSort low high s = Ok tt s' →
         len (numbers s') = len (numbers s) ∧
         ∀ i, low ≤ i < high →
              ∃ x y, get (numbers s') i = Some x ∧
                     get (numbers s') (i + 1) = Some y ∧ x ≤ y).
Proof.
  intros Hv. split; [by apply quickSort_returns|].
  intros s' Hrun. destruct (quickSort_result s low high s' Hv Hrun) as [Ht Hs].
  pose proof (touches_len _ _ _ _ Ht) as Hlen. split; [done|].
  destruct Hv as (_ & _ & Hlow & Hhigh). intros i Hi.
  exists (sel (numbers s') i), (sel (numbers s') (i + 1)).
  rewrite !get_inside by lia. split; [done|]. split; [done|]. by apply Hs.
Qed.

Lemma quickSort_sorted_witness :
  ∃ s', quickSort 0 5 scenario = Ok tt s' ∧
        numbers s' = [1; 2; 3; 5; 8; 9] ∧
        len (numbers s') = len (numbers scenario) ∧
        ∀ i, 0 ≤ i < 5 →
             ∃ x y, get (numbers s') i = Some x ∧
                    get (numbers s') (i + 1) = Some y ∧ x ≤ y.
Proof.
  destruct (quickSort_sorted scenario 0 5) as [Hret Hpost].
  - concrete_call.
  - destruct Hret as [s' Hrun]; [concrete_call|].
    exists s'. split; [exact Hrun|]. split; [|apply Hpost, Hrun].
    revert Hrun. vm_compute. intros [= <-]. reflexivity.
Defined.

(** C2 (permutation).  For every array and every valid call: when
    [quickSort(numbers, low, high)] has returned, the values at indices
    [low..high] are a rearrangement of the values that were there before;
    none is created, lost or duplicated. *)
Theorem quickSort_permutation s low high :
  valid_call s low high →
  (high ≤ HALF_MAX → ∃ s', quickSort low high s = Ok tt s') ∧
  (∀ s', quickSort low high s = Ok tt s' →
         slice (numbers s') low high ≡ₚ slice (numbers s) low high).
Proof.
  intros Hv. split; [by apply quickSort_returns|].
  intros s' Hrun. destruct (quickSort_result s low high s' Hv Hrun) as [Ht _].
  by apply touches_slice.
Qed.

Lemma quickSort_permutation_witness :
  ∃ s', quickSort 0 5 scenario = Ok tt s' ∧
        slice (numbers s') 0 5 ≡ₚ slice (numbers scenario) 0 5.
Proof.
  destruct (quickSort_permutation scenario 0 5) as [Hret Hpost].
  - concrete_call.
  - destruct Hret as [s' Hrun]; [concrete_call|].
    exists s'. split; [exact Hrun|]. apply Hpost, Hrun.
Defined.

(** C8 (frame).  For every array and every valid call: when
    [quickSort(numbers, low, high)] has returned, the array has the length it
    had, and every index outside [low..high] holds the value it held
    before. *)
Theorem quickSort_frame s low high :
  valid_call s low high →
  (high ≤ HALF_MAX → ∃ s', quickSort low high s = Ok tt s') ∧
  (∀ s', quickSort low high s = Ok tt s' →
         length (numbers s') = length (numbers s) ∧
         ∀ k, ¬ (low ≤ k ≤ high) → get (numbers s') k = get (numbers s) k).
Proof.
  intros Hv. split; [by apply quickSort_returns|].
  intros s' Hrun. destruct (quickSort_result s low high s' Hv Hrun) as [[P F _] _].
  split; [by rewrite P|].
  intros k Hk. unfold get. case_bool_decide; [|done]. apply F. lia.
Qed.

Lemma quickSort_frame_witness :
  ∃ s', quickSort 1 3 scenario = Ok tt s' ∧
        length (numbers s') = length (numbers scenario) ∧
        ∀ k, ¬ (1 ≤ k ≤ 3) → get (numbers s') k = get (numbers scenario) k.
Proof.
  destruct (quickSort_frame scenario 1 3) as [Hret Hpost].
  - concrete_call.
  - destruct Hret as [s' Hrun]; [concrete_call|].
    exists s'. split; [exact Hrun|]. apply Hpost, Hrun.
Defined.

(** C10 (idempotence).  For every array whose range [low..high] is already
    in non-decreasing order, a valid call [quickSort(numbers, low, high)]
    that has returned leaves the whole array as it was. *)
Theorem quickSort_idempotent s low high :
  valid_call s low high → sorted_range (numbers s) low high →
  (high ≤ HALF_MAX → ∃ s', quickSort low high s = Ok tt s') ∧
  (∀ s', quickSort low high s = Ok tt s' → numbers s' = numbers s).
Proof.
  intros Hv Hs. split; [by apply quickSort_returns|].
  intros s' Hrun. destruct (quickSort_result s low high s' Hv Hrun) as [Ht Hs'].
  pose proof (touches_len _ _ _ _ Ht) as Hlen.
  pose proof (touches_slice _ _ _ _ Ht) as Hperm.
  destruct Hv as (_ & _ & Hlow & Hhigh).
  destruct Ht as [P F _].
  apply (slice_ext _ _ low high); [done|done|].
  apply sorted_slice_unique; (done || lia).
Qed.

Lemma quickSort_idempotent_witness :
  ∃ s', quickSort 0 5 (fresh [1; 2; 2; 5; 8; 9]) = Ok tt s' ∧
        numbers s' = [1; 2; 2; 5; 8; 9].
Proof.
  destruct (quickSort_idempotent (fresh [1; 2; 2; 5; 8; 9]) 0 5) as [Hret Hpost].
  - concrete_call.
  - intros i Hi.
    assert (i = 0 ∨ i = 1 ∨ i = 2 ∨ i = 3 ∨ i = 4) as [->|[->|[->|[->| ->]]]] by lia;
      vm_compute; discriminate.
  - destruct Hret as [s' Hrun]; [concrete_call|].
    exists s'. split; [exact Hrun|]. apply Hpost, Hrun.
Defined.

Lemma slice_whole a : slice a 0 (len a - 1) = a.
Proof.
  unfold slice, len. rewrite drop_0. apply firstn_all2. lia.
Qed.

(** The call of [main], [quickSort(numbers, 0, count - 1)] on a whole array
    of up to [HALF_MAX + 1] elements, returns the array sorted. *)
Theorem sort_array_whole a :
  0 < len a ≤ HALF_MAX + 1 →
  ∃ a', sort_array a 0 (len a - 1) = Some a' ∧ Sorted Z.le a' ∧ a' ≡ₚ a.
Proof.
  intros Hlen.
  assert (Hv : valid_call (fresh a) 0 (len a - 1)).
  { unfold valid_call, is_int, INT_MIN, INT_MAX, HALF_MAX in *. simpl. lia. }
  destruct (quickSort_returns _ _ _ Hv) as [s' Hrun]; [lia|].
  destruct (quickSort_result _ _ _ _ Hv Hrun) as [Ht Hs].
  pose proof (touches_len _ _ _ _ Ht) as Hl. simpl in Hl.
  unfold sort_array. rewrite Hrun. exists (numbers s'). split; [done|]. split.
  - rewrite <- (slice_whole (numbers s')). rewrite Hl.
    apply slice_sorted; [done|lia|done].
  - apply Ht.
Qed.

(** ** Properties of the partition step *)

(** C3 (partition).  For every array and every range with
    [0 ≤ low ≤ high ≤ n - 1]: when the partition loop has ended with cursors
    [new_low] and [new_high], and [pivot] is the value that was at index
    [(low + high) / 2] on entry, every element of [low..new_high] is at most
    [pivot], every element of [new_low..high] is at least [pivot], and the
    contents of [low..high] are a rearrangement of the contents on entry.
    The loop does end whenever [low + high] fits an [int]. *)
Theorem partition_splits s low high :
  is_int low → is_int high → 0 ≤ low → low ≤ high → high ≤ len (numbers s) - 1 →
  (low + high ≤ INT_MAX → ∃ nl nh s', partition low high s = Ok (nl, nh) s') ∧
  (∀ nl nh s', partition low high s = Ok (nl, nh) s' →
     let pivot := sel (numbers s) ((low + high) `div` 2) in
     (∀ k, low ≤ k ≤ nh → sel (numbers s') k ≤ pivot) ∧
     (∀ k, nl ≤ k ≤ high → pivot ≤ sel (numbers s') k) ∧
     slice (numbers s') low high ≡ₚ slice (numbers s) low high).
Proof.
  intros _ Hint Hlow Hle Hhigh. split.
  - intros Hsum.
    destruct (partition_ok low high s) as (nl & nh & s' & Hrun & _); try lia.
    by exists nl, nh, s'.
  - intros nl nh s' Hrun.
    destruct (partition_result s low high nl nh s') as [_ Hpd]; try done.
    destruct Hpd as [Ht Hleft Hright Hcross Hgap Hnl Hnh]. simpl.
    unfold pivot_of in *. split; [|split].
    + intros k Hk. apply Hleft. lia.
    + intros k Hk. apply Hright. lia.
    + by apply touches_slice.
Qed.

Lemma partition_splits_witness :
  ∃ s', partition 0 5 scenario = Ok (4, 3) s' ∧
     (∀ k, 0 ≤ k ≤ 3 → sel (numbers s') k ≤ 8) ∧
     (∀ k, 4 ≤ k ≤ 5 → 8 ≤ sel (numbers s') k) ∧
     slice (numbers s') 0 5 ≡ₚ slice (numbers scenario) 0 5.
Proof.
  assert (H : is_int 0 ∧ is_int 5) by concrete_call.
  destruct (partition_splits scenario 0 5 (proj1 H) (proj2 H))
    as [_ Hpost]; [lia|lia|unfold len; simpl; lia|].
  eexists. split; [vm_compute; reflexivity|].
  apply (Hpost 4 3). vm_compute. reflexivity.
Defined.

(** C5 as stated fails: on [1; 2; 3] the loop ends with [new_low = 2] and
    [new_high = 0], neither [new_low - 1] nor [new_low]. *)
Lemma split_point_counterexample :
  ∃ s', partition 0 2 (fresh [1; 2; 3]) = Ok (2, 0) s' ∧
        ¬ (0 = 2 - 1 ∨ 0 = 2).
Proof. eexists. split; [vm_compute; reflexivity|lia]. Qed.

(** C5 (split point), amended.  For every array and every range with
    [low ≤ high]: the cursors the partition loop ends with satisfy
    [new_high = new_low - 1] or [new_high = new_low - 2]; they have crossed,
    and at most one index lies between them.  The loop does end whenever the
    range lies inside the array and [low + high] fits an [int]. *)
Theorem partition_split_point s low high :
  is_int low → is_int high → low ≤ high →
  (0 ≤ low → high ≤ len (numbers s) - 1 → low + high ≤ INT_MAX →
   ∃ nl nh s', partition low high s = Ok (nl, nh) s') ∧
  (∀ nl nh s', partition low high s = Ok (nl, nh) s' →
               nh = nl - 1 ∨ nh = nl - 2).
Proof.
  intros _ Hint Hle. split.
  - intros Hlow Hhigh Hsum.
    destruct (partition_ok low high s) as (nl & nh & s' & Hrun & _); try lia.
    by exists nl, nh, s'.
  - intros nl nh s' Hrun.
    destruct (partition_Ok_inside s low high _ s' Hle Hrun) as [Hlow Hhigh].
    destruct (partition_result s low high nl nh s') as [_ Hpd]; try done.
    destruct Hpd as [_ _ _ Hcross Hgap _ _]. lia.
Qed.

Lemma partition_split_point_witness :
  ∃ s', partition 0 5 scenario = Ok (4, 3) s' ∧ (3 = 4 - 1 ∨ 3 = 4 - 2).
Proof.
  assert (H : is_int 0 ∧ is_int 5) by concrete_call.
  destruct (partition_split_point scenario 0 5 (proj1 H) (proj2 H))
    as [_ Hpost]; [lia|].
  eexists. split; [vm_compute; reflexivity|].
  eapply (Hpost 4 3). vm_compute. reflexivity.
Defined.

(** Both gaps occur. *)
Example split_point_gap_one :
  ∃ s', partition 0 1 (fresh [2; 1]) = Ok (1, 0) s'.
Proof. eexists. vm_compute. reflexivity. Qed.

Example split_point_gap_two :
  ∃ s', partition 0 2 (fresh [1; 2; 3]) = Ok (2, 0) s'.
Proof. eexists. vm_compute. reflexivity. Qed.

(** ** Termination *)

(** X17.  Up to [HALF_MAX], where [high + low] always fits an [int], every
    valid call of [quickSort(numbers, low, high)] returns, equal elements
    included: no loop and no chain of recursive calls exceeds its bound.
    When [low < high] the partition loop ends with the cursors crossed,
    and both sub-ranges it hands to the recursive calls, [low..new_high]
    and [new_low..high], are strictly shorter than [low..high]. *)
Theorem quickSort_returns_up_to_half s low high :
  valid_call s low high → high ≤ HALF_MAX →
  (∃ s', quickSort low high s = Ok tt s') ∧
  (low < high →
     ∃ nl nh s', partition low high s = Ok (nl, nh) s' ∧
                 nh < nl ∧ nh - low < high - low ∧ high - nl < high - low).
Proof.
  intros Hv Hhalf. split; [by apply quickSort_returns|].
  destruct Hv as (_ & Hint & Hlow & Hhigh). intros Hlt.
  destruct (partition_ok low high s) as (nl & nh & s' & Hrun & Hpd);
    try (unfold HALF_MAX, INT_MAX in *; lia).
  exists nl, nh, s'. split; [done|].
  destruct Hpd as [_ _ _ Hcross _ Hnl Hnh]. lia.
Qed.

Lemma quickSort_returns_up_to_half_witness :
  (∃ s', quickSort 0 4 sevens = Ok tt s') ∧
  ∃ nl nh s', partition 0 4 sevens = Ok (nl, nh) s' ∧
              nh < nl ∧ nh - 0 < 4 - 0 ∧ 4 - nl < 4 - 0.
Proof.
  destruct (quickSort_returns_up_to_half sevens 0 4) as [Hret Hpart];
    [concrete_call|concrete_call|].
  split; [exact Hret|]. apply Hpart. lia.
Defined.

(** ** The guard *)

(** C7 (guard).  For every array and every range with [low ≥ high], a
    single cell or none: [quickSort] returns at once and leaves the state as
    it is; no element is changed and no load, store or task is added to the
    trace.  The guard is the first thing every call does, whatever its depth
    in the recursion. *)
Theorem quickSort_guard fuel s low high :
  low >= high →
  quickSort_fuel fuel low high s = Ok tt s ∧ quickSort low high s = Ok tt s.
Proof.
  intros Hge. unfold quickSort. rewrite !quickSort_fuel_eq.
  by rewrite bool_decide_eq_true_2.
Qed.

Lemma quickSort_guard_witness :
  quickSort_fuel 3 4 2 scenario = Ok tt scenario ∧
  quickSort 4 2 scenario = Ok tt scenario.
Proof. apply (quickSort_guard 3 scenario 4 2). lia. Defined.

(** ** The two tasks *)

(** Sorting one range leaves the slice of a disjoint range as it was. *)
Lemma touches_slice_disjoint l h low high s s' :
  touches l h s s' → 0 ≤ low → (high < l ∨ h < low) →
  slice (numbers s') low high = slice (numbers s) low high.
Proof.
  intros [_ F _] Hlow Hdis. apply slice_frame_eq; [done|].
  intros k Hk. apply F. lia.
Qed.

(** What a call makes of the slice it sorts depends only on the values in
    that slice. *)
Lemma quickSort_slice_unique s t low high s' t' :
  valid_call s low high → valid_call t low high →
  slice (numbers t) low high ≡ₚ slice (numbers s) low high →
  quickSort low high s = Ok tt s' → quickSort low high t = Ok tt t' →
  slice (numbers t') low high = slice (numbers s') low high.
Proof.
  intros Hs Ht Hperm Hruns Hrunt.
  destruct (quickSort_result _ _ _ _ Hs Hruns) as [Hts Hss].
  destruct (quickSort_result _ _ _ _ Ht Hrunt) as [Htt Hst].
  pose proof (touches_len _ _ _ _ Hts). pose proof (touches_len _ _ _ _ Htt).
  destruct Hs as (_ & _ & Hlow & Hhs), Ht as (_ & _ & _ & Hht).
  apply sorted_slice_unique; try done; try lia.
  by rewrite (touches_slice _ _ _ _ Htt), (touches_slice _ _ _ _ Hts).
Qed.

(** The two tasks of a call sort disjoint ranges; the array they leave is
    the same whichever of them runs first. *)
Lemma quickSort_tasks_commute s l1 h1 l2 h2 s12 s21 :
  valid_call s l1 h1 → valid_call s l2 h2 → h1 < l2 →
  (quickSort l1 h1 ≫= λ _, quickSort l2 h2) s = Ok tt s12 →
  (quickSort l2 h2 ≫= λ _, quickSort l1 h1) s = Ok tt s21 →
  numbers s12 = numbers s21.
Proof.
  intros Hv1 Hv2 Hdis Hrun12 Hrun21. rewrite bind_run in Hrun12, Hrun21.
  destruct (quickSort l1 h1 s) as [[] sa|] eqn:Ea; [|done].
  destruct (quickSort l2 h2 s) as [[] sb|] eqn:Eb; [|done].
  destruct (quickSort_result _ _ _ _ Hv1 Ea) as [Hta _].
  destruct (quickSort_result _ _ _ _ Hv2 Eb) as [Htb _].
  pose proof (touches_len _ _ _ _ Hta) as Hla.
  pose proof (touches_len _ _ _ _ Htb) as Hlb.
  assert (Hva : valid_call sa l2 h2) by (unfold valid_call in *; rewrite Hla; done).
  assert (Hvb : valid_call sb l1 h1) by (unfold valid_call in *; rewrite Hlb; done).
  destruct (quickSort_result _ _ _ _ Hva Hrun12) as [Ht12 _].
  destruct (quickSort_result _ _ _ _ Hvb Hrun21) as [Ht21 _].
  assert (Hlow1 : 0 ≤ l1) by apply Hv1. assert (Hlow2 : 0 ≤ l2) by apply Hv2.
  assert (E1 : slice (numbers s12) l1 h1 = slice (numbers s21) l1 h1).
  { rewrite (touches_slice_disjoint l2 h2 l1 h1 sa s12) by (done || lia).
    symmetry. apply (quickSort_slice_unique s sb l1 h1); try done.
    by rewrite (touches_slice_disjoint l2 h2 l1 h1 s sb) by (done || lia). }
  assert (E2 : slice (numbers s12) l2 h2 = slice (numbers s21) l2 h2).
  { rewrite (touches_slice_disjoint l1 h1 l2 h2 sb s21) by (done || lia).
    apply (quickSort_slice_unique s sa l2 h2); try done.
    by rewrite (touches_slice_disjoint l1 h1 l2 h2 s sa) by (done || lia). }
  apply list_eq. intros k.
  destruct (decide (l1 ≤ Z.of_nat k ≤ h1)); [by apply (slice_eq_lookup _ _ l1 h1)|].
  destruct (decide (l2 ≤ Z.of_nat k ≤ h2)); [by apply (slice_eq_lookup _ _ l2 h2)|].
  rewrite (touches_frame _ _ _ _ Ht12), (touches_frame _ _ _ _ Hta) by done.
  rewrite (touches_frame _ _ _ _ Ht21), (touches_frame _ _ _ _ Htb) by done.
  done.
Qed.

(** ** Array accesses *)

(** Up to [HALF_MAX] every load and store of the run, at any depth of the
    recursion, is at an index of [low..high], inside the array. *)
Theorem quickSort_accesses s low high :
  valid_call s low high → high ≤ HALF_MAX →
  ∃ s' evs, quickSort low high s = Ok tt s' ∧ trace s' = evs ++ trace s ∧
            Forall (λ e, within low high e ∧ within 0 (len (numbers s) - 1) e) evs.
Proof.
  intros Hv Hhalf. destruct (quickSort_returns s low high Hv Hhalf) as [s' Hrun].
  destruct (quickSort_result s low high s' Hv Hrun) as [[_ _ (evs & Htr & Hw)] _].
  exists s', evs. split; [done|]. split; [done|].
  destruct Hv as (_ & _ & Hlow & Hhigh).
  eapply Forall_impl; [done|]. intros e He. split; [done|].
  eapply within_mono; [| |done]; lia.
Qed.

(** Beyond that, [high + low] may not fit an [int]; the sum wraps around and
    the pivot is read below the array. *)
Lemma quickSort_overflow s low high :
  0 ≤ low → low < high → high ≤ INT_MAX → INT_MAX < low + high →
  quickSort low high s = Fault (OutOfBounds (int_half (int_add high low)))
  ∧ int_half (int_add high low) < 0.
Proof.
  intros Hlow Hlt Hint Hsum.
  destruct (partition_overflow low high s) as [Hrun Hneg]; try lia.
  split; [|done]. unfold quickSort.
  destruct (Z.to_nat (high - low)) as [|fuel] eqn:Hfuel; [lia|].
  rewrite quickSort_fuel_eq, bool_decide_eq_false_2 by lia.
  by rewrite bind_run, Hrun.
Qed.

Lemma big_array_len : len big_array = 1073741826.
Proof. unfold len, big_array. rewrite length_replicate. apply Z2Nat.id. lia. Qed.

(** C9 (bounds) fails on the last two cells of [big_array]: the call is
    valid, [high + low = 2^31 + 1] wraps to [-2^31 + 1], and the pivot is
    read at index [-1073741823]. *)
Theorem quickSort_pivot_out_of_bounds :
  valid_call (fresh big_array) 1073741824 1073741825 ∧
  quickSort 1073741824 1073741825 (fresh big_array)
  = Fault (OutOfBounds (-1073741823)).
Proof.
  split.
  - unfold valid_call. change (numbers (fresh big_array)) with big_array.
    rewrite big_array_len. unfold is_int, INT_MIN, INT_MAX. lia.
  - apply (quickSort_overflow (fresh big_array) 1073741824 1073741825);
      unfold INT_MAX; lia.
Qed.

(** C4 (termination) fails on the same call: the range holds two cells,
    both 0, the call is valid, and neither the partition step nor the call
    returns; the run stops at the load of the pivot below the array. *)
Theorem quickSort_fails_to_return :
  valid_call (fresh big_array) 1073741824 1073741825 ∧
  (∀ r s', partition 1073741824 1073741825 (fresh big_array) ≠ Ok r s') ∧
  (∀ s', quickSort 1073741824 1073741825 (fresh big_array) ≠ Ok tt s').
Proof.
  split; [|split].
  - unfold valid_call. change (numbers (fresh big_array)) with big_array.
    rewrite big_array_len. unfold is_int, INT_MIN, INT_MAX. lia.
  - intros r s'.
    destruct (partition_overflow 1073741824 1073741825 (fresh big_array))
      as [Hrun _]; [unfold INT_MAX; lia..|].
    by rewrite Hrun.
  - intros s'.
    destruct (quickSort_overflow (fresh big_array) 1073741824 1073741825)
      as [Hrun _]; [unfold INT_MAX; lia..|].
    by rewrite Hrun.
Qed.

(** * The rest of the program *)

(** ** Numbers as text *)

Lemma nat_of_digit_char d :
  0 ≤ d ≤ 9 → Z.of_nat (nat_of_ascii (digit_char d)) = 48 + d.
Proof.
  intros Hd. unfold digit_char. rewrite nat_ascii_embedding by lia. lia.
Qed.

Lemma digit_val_char d : 0 ≤ d ≤ 9 → digit_val (digit_char d) = Some d.
Proof.
  intros Hd. unfold digit_val. rewrite nat_of_digit_char by done.
  rewrite bool_decide_eq_true_2 by lia. f_equal. lia.
Qed.

Lemma digits_value_app l r acc :
  Forall is_digit l →
  digits_value (l ++ r) acc = digits_value r (digits_value l acc).
Proof.
  intros Hl. revert acc. induction Hl as [|c l [d Hd] _ IH]; intros acc; [done|].
  simpl. rewrite Hd. apply IH.
Qed.

Lemma show_nat_fuel_digits fuel x :
  0 ≤ x → Forall is_digit (show_nat_fuel fuel x).
Proof.
  revert x. induction fuel as [|fuel IH]; intros x Hx; simpl; [constructor|].
  case_bool_decide.
  - apply Forall_singleton. exists x. apply digit_val_char. lia.
  - apply Forall_app. split; [apply IH; apply Z.div_pos; lia|].
    apply Forall_singleton. exists (x `mod` 10). apply digit_val_char.
    pose proof (Z.mod_pos_bound x 10). lia.
Qed.

Lemma show_nat_fuel_value fuel x :
  0 ≤ x < 2 ^ Z.of_nat fuel → digits_value (show_nat_fuel fuel x) 0 = x.
Proof.
  revert x. induction fuel as [|fuel IH]; intros x Hx.
  - simpl in *. lia.
  - simpl. case_bool_decide.
    + simpl. rewrite digit_val_char by lia. lia.
    + rewrite digits_value_app by (apply show_nat_fuel_digits, Z.div_pos; lia).
      rewrite IH.
      * simpl. rewrite digit_val_char by (pose proof (Z.mod_pos_bound x 10); lia).
        pose proof (Z.div_mod x 10). lia.
      * rewrite Nat2Z.inj_succ, Z.pow_succ_r in Hx by lia.
        split; [apply Z.div_pos; lia|]. apply Z.div_lt_upper_bound; lia.
Qed.

Lemma show_nat_fuel_head fuel x :
  0 ≤ x → ∃ c t, show_nat_fuel (S fuel) x = c :: t ∧ is_digit c.
Proof.
  intros Hx.
  pose proof (show_nat_fuel_digits (S fuel) x Hx) as Hd.
  destruct (show_nat_fuel (S fuel) x) as [|c t] eqn:E.
  - simpl in E. case_bool_decide; [done|]. by destruct (show_nat_fuel fuel _).
  - exists c, t. split; [done|]. by apply Forall_cons in Hd as [? _].
Qed.

Lemma log2_fuel x : 0 ≤ x → x < 2 ^ Z.of_nat (S (Z.to_nat (Z.log2 x))).
Proof.
  intros Hx. rewrite Nat2Z.inj_succ, Z2Nat.id by apply Z.log2_nonneg.
  destruct (decide (x = 0)) as [->|]; [done|].
  apply Z.log2_spec. lia.
Qed.

Lemma show_nat_value x : 0 ≤ x → digits_value (show_nat x) 0 = x.
Proof.
  intros Hx. apply show_nat_fuel_value. split; [done|]. by apply log2_fuel.
Qed.

Lemma show_nat_digits x : 0 ≤ x → Forall is_digit (show_nat x).
Proof. apply show_nat_fuel_digits. Qed.

Lemma show_nat_head x : 0 ≤ x → ∃ c t, show_nat x = c :: t ∧ is_digit c.
Proof. apply show_nat_fuel_head. Qed.

Lemma digit_not_sign c : is_digit c → c ≠ minus ∧ c ≠ plus ∧ c ≠ comma ∧ is_space c = false.
Proof.
  intros [d Hd]. unfold digit_val in Hd. case_bool_decide as Hc; [|done].
  repeat split;
    try (intros ->; revert Hc;
         match goal with |- context [nat_of_ascii ?c] =>
           let n := eval vm_compute in (nat_of_ascii c) in
           change (nat_of_ascii c) with n
         end; lia).
  unfold is_space. apply bool_decide_eq_false_2. lia.
Qed.

Lemma stoi_digits c t :
  is_digit c →
  stoi (c :: t) =
  if bool_decide (is_int (digits_value (c :: t) 0))
  then Value (digits_value (c :: t) 0) else Throw OutOfRange.
Proof.
  intros Hc. destruct (digit_not_sign c Hc) as (Hm & Hp & _ & Hs).
  unfold stoi. cbn [skip_space]. rewrite Hs.
  rewrite !bool_decide_eq_false_2 by done.
  by rewrite bool_decide_eq_true_2 by done.
Qed.

Lemma stoi_minus_digits c t :
  is_digit c →
  stoi (minus :: c :: t) =
  if bool_decide (is_int (- digits_value (c :: t) 0))
  then Value (- digits_value (c :: t) 0) else Throw OutOfRange.
Proof.
  intros Hc. unfold stoi. cbn [skip_space].
  replace (is_space minus) with false by reflexivity.
  rewrite (bool_decide_eq_true_2 (minus = minus)) by done.
  by rewrite bool_decide_eq_true_2 by done.
Qed.

(** What [stoi] makes of a printed number. *)
Lemma stoi_show_int x :
  stoi (show_int x) = if bool_decide (is_int x) then Value x else Throw OutOfRange.
Proof.
  unfold show_int. case_bool_decide as Hneg.
  - destruct (show_nat_head (- x)) as (c & t & E & Hc); [lia|].
    pose proof (show_nat_value (- x) ltac:(lia)) as Hv.
    rewrite E in *. rewrite stoi_minus_digits, Hv by done.
    by rewrite Z.opp_involutive.
  - destruct (show_nat_head x) as (c & t & E & Hc); [lia|].
    pose proof (show_nat_value x ltac:(lia)) as Hv.
    rewrite E in *. by rewrite stoi_digits, Hv by done.
Qed.

Lemma show_int_no_comma x : comma ∉ show_int x.
Proof.
  assert (∀ y, 0 ≤ y → comma ∉ show_nat y) as Hn.
  { intros y Hy Hin. pose proof (show_nat_digits y Hy) as Hd.
    rewrite Forall_forall in Hd. by destruct (digit_not_sign _ (Hd _ Hin)) as (_ & _ & ? & _). }
  unfold show_int. case_bool_decide.
  - intros [|Hin]%elem_of_cons; [done|]. by apply (Hn (- x)); [lia|].
  - apply Hn. lia.
Qed.

Lemma show_int_nonempty x : show_int x ≠ [].
Proof.
  unfold show_int. case_bool_decide; [done|].
  by destruct (show_nat_head x) as (c & t & -> & _); [lia|].
Qed.

(** ** Lines of a file *)

Lemma break_at_app t r :
  comma ∉ t → break_at comma (t ++ comma :: r) = (t, r).
Proof.
  induction t as [|c t IH]; intros Hin; simpl.
  - done.
  - apply not_elem_of_cons in Hin as [Hc Hin].
    rewrite bool_decide_eq_false_2 by done. by rewrite IH.
Qed.

Lemma break_at_all t : comma ∉ t → break_at comma t = (t, []).
Proof.
  induction t as [|c t IH]; intros Hin; simpl; [done|].
  apply not_elem_of_cons in Hin as [Hc Hin].
  rewrite bool_decide_eq_false_2 by done. by rewrite IH.
Qed.

(** The first [getline] on the text of a list yields the first number as
    printed and leaves the text of the others. *)
Lemma getline_csv x l : getline (csv (x :: l)) comma = Some (show_int x, csv l).
Proof.
  unfold getline. destruct (csv (x :: l)) as [|c t] eqn:E.
  { simpl in E. apply app_eq_nil in E as [E _]. by apply show_int_nonempty in E. }
  rewrite <- E. f_equal. simpl. destruct l as [|y l].
  - rewrite app_nil_r. apply break_at_all, show_int_no_comma.
  - apply break_at_app, show_int_no_comma.
Qed.

Lemma csv_length l : (length l ≤ length (csv l))%nat.
Proof.
  induction l as [|x l IH]; simpl; [lia|].
  rewrite length_app. pose proof (show_int_nonempty x).
  destruct (show_int x); [done|]. destruct l; simpl in *; lia.
Qed.

Lemma csv_cons_app t x l :
  (t ++ show_int x ++ match l with [] => [] | _ :: _ => [comma] end) ++ csv l
  = t ++ csv (x :: l).
Proof. destruct l; simpl; by rewrite <- ?(assoc_L (++)), ?app_nil_r. Qed.

(** ** Running the program *)

Lemma run_bind {A B} (m : P A) (k : A → P B) w :
  (m ≫= k) w = match m w with Done x w' => k x w' | Raised e => Raised e end.
Proof. reflexivity. Qed.

Lemma run_ret {A} (x : A) w : (mret x : P A) w = Done x w.
Proof. reflexivity. Qed.

Lemma on_array_store_inside i v w :
  0 ≤ i < len (numbers (heap w)) →
  on_array (store i v) w
  = Done tt (set_heap (State (upd (numbers (heap w)) i v) (Store i :: trace (heap w))) w).
Proof. intros Hi. unfold on_array. by rewrite store_inside. Qed.

Lemma on_array_store_outside i v w :
  ¬ (0 ≤ i < len (numbers (heap w))) →
  on_array (store i v) w = Raised (ArrayFault (OutOfBounds i)).
Proof. intros Hi. unfold on_array, store. by rewrite get_outside. Qed.

Lemma on_array_load_inside i w :
  0 ≤ i < len (numbers (heap w)) →
  on_array (load i) w
  = Done (sel (numbers (heap w)) i)
         (set_heap (State (numbers (heap w)) (Load i :: trace (heap w))) w).
Proof. intros Hi. unfold on_array. by rewrite load_inside. Qed.

(** ** [generate_random_numbers] *)

Lemma generate_loop_eq fuel n i :
  generate_loop fuel n i =
  if bool_decide (i < n) then
    match fuel with
    | O => raise (ArrayFault OutOfFuel)
    | S fuel' =>
        rand ≫= λ r,
        on_array (store i (r `rem` 1000)) ≫= λ _,
        generate_loop fuel' n (int_succ i)
    end
  else mret tt.
Proof. destruct fuel; reflexivity. Qed.

Lemma generated_length rs start m : length (generated rs start m) = m.
Proof. unfold generated. by rewrite length_fmap, length_seq. Qed.

(** Every generated number is between 0 and 999. *)
Lemma drawn_bounds rs k : 0 ≤ drawn rs k ≤ 999.
Proof.
  unfold drawn. pose proof (Z.rem_bound_pos (Z.of_N (rs k)) 1000). lia.
Qed.

Lemma generated_bounds rs start m :
  Forall (λ v, 0 ≤ v ≤ 999) (generated rs start m).
Proof.
  unfold generated. apply Forall_fmap, Forall_forall. intros k _. apply drawn_bounds.
Qed.

(** The loop from cell [i] on: cells [i..n-1] receive the next numbers. *)
Lemma generate_loop_ok fuel n i w :
  0 ≤ i → i ≤ n → n ≤ len (numbers (heap w)) → n ≤ INT_MAX →
  (Z.to_nat (n - i) ≤ fuel)%nat →
  ∃ tr, generate_loop fuel n i w
        = Done tt (with_array w
             (take (Z.to_nat i) (numbers (heap w))
              ++ generated (rand_seq w) (rand_calls w) (Z.to_nat (n - i))
              ++ drop (Z.to_nat n) (numbers (heap w)))
             tr (Z.to_nat (n - i))).
Proof.
  revert i w. induction fuel as [|fuel IH]; intros i w Hi Hin Hn Hint Hfuel;
    rewrite generate_loop_eq; case_bool_decide as Hlt; try lia.
  - exists (trace (heap w)). replace (Z.to_nat (n - i)) with 0%nat by lia.
    replace (Z.to_nat i) with (Z.to_nat n) by lia.
    unfold with_array, generated. simpl. rewrite take_drop, Nat.add_0_r.
    by destruct w as [[]].
  - rewrite run_bind. unfold rand at 1. simpl.
    rewrite run_bind, on_array_store_inside by (simpl; lia). simpl.
    rewrite int_succ_id by (unfold INT_MIN; lia).
    set (v := Z.of_N (rand_seq w (rand_calls w)) `rem` 1000).
    set (w1 := set_heap _ _).
    destruct (IH (i + 1) w1) as [tr Hrun]; try lia.
    { subst w1. simpl. rewrite len_upd. lia. }
    exists tr. rewrite Hrun. f_equal. subst w1. unfold with_array, upd. simpl.
    unfold len in *.
    replace (Z.to_nat (n - i)) with (S (Z.to_nat (n - (i + 1)))) by lia.
    replace (Z.to_nat (i + 1)) with (S (Z.to_nat i)) by lia.
    f_equal; [|lia]. f_equal.
    erewrite take_S_r by (apply list_lookup_insert_eq; lia).
    rewrite take_insert_ge by lia. rewrite drop_insert_lt by lia.
    rewrite <- (assoc_L (++)). simpl. done.
  - exists (trace (heap w)). replace (Z.to_nat (n - i)) with 0%nat by lia.
    replace (Z.to_nat i) with (Z.to_nat n) by lia.
    unfold with_array, generated. simpl. rewrite take_drop, Nat.add_0_r.
    by destruct w as [[]].
Qed.


(** ** [write_numbers_to_file] *)

Lemma write_loop_eq fuel filename n i :
  write_loop fuel filename n i =
  if bool_decide (i < n) then
    match fuel with
    | O => raise (ArrayFault OutOfFuel)
    | S fuel' =>
        on_array (load i) ≫= λ x,
        put filename (show_int x) ≫= λ _,
        (if bool_decide (i < int_pred n) then put filename [comma] else mret tt) ≫= λ _,
        write_loop fuel' filename n (int_succ i)
    end
  else mret tt.
Proof. destruct fuel; reflexivity. Qed.

Lemma put_open filename t t' w :
  disk w !! filename = Some t →
  put filename t' w = Done tt (set_disk (<[filename := t ++ t']> (disk w)) w).
Proof. intros Ht. unfold put. by rewrite Ht. Qed.

Lemma world_eta w : set_disk (disk w) (set_heap (State (numbers (heap w)) (trace (heap w))) w) = w.
Proof. by destruct w as [[]]. Qed.

(** The loop from cell [i] on appends the text of cells [i..n-1]. *)
Lemma write_loop_ok fuel filename n i w t :
  0 ≤ i → i ≤ n → n ≤ len (numbers (heap w)) → n ≤ INT_MAX →
  (Z.to_nat (n - i) ≤ fuel)%nat →
  disk w !! filename = Some t →
  ∃ tr, write_loop fuel filename n i w
        = Done tt (set_disk
             (<[filename := t ++ csv (take (Z.to_nat (n - i))
                                        (drop (Z.to_nat i) (numbers (heap w))))]> (disk w))
             (set_heap (State (numbers (heap w)) tr) w)).
Proof.
  revert i w t. induction fuel as [|fuel IH]; intros i w t Hi Hin Hn Hint Hfuel Ht;
    rewrite write_loop_eq; case_bool_decide as Hlt; try lia.
  - exists (trace (heap w)). replace (Z.to_nat (n - i)) with 0%nat by lia.
    rewrite take_0. cbn [csv]. rewrite app_nil_r, insert_id by done.
    by rewrite world_eta.
  - assert (Hp : int_pred n = n - 1) by (apply int_pred_id; unfold INT_MIN; lia).
    assert (Hs : int_succ i = i + 1) by (apply int_succ_id; unfold INT_MIN; lia).
    rewrite Hp, Hs. clear Hp Hs.
    rewrite run_bind, on_array_load_inside by lia.
    set (x := sel (numbers (heap w)) i).
    set (w1 := set_heap _ w).
    assert (Hd1 : disk w1 = disk w) by done.
    assert (Hn1 : numbers (heap w1) = numbers (heap w)) by done.
    rewrite run_bind, (put_open filename t) by (by rewrite Hd1).
    rewrite run_bind.
    assert (Hx : drop (Z.to_nat i) (numbers (heap w))
                 = x :: drop (Z.to_nat (i + 1)) (numbers (heap w))).
    { replace (Z.to_nat (i + 1)) with (S (Z.to_nat i)) by lia.
      apply drop_S. unfold len in *. rewrite lookup_sel by lia.
      subst x. do 2 f_equal. lia. }
    replace (Z.to_nat (n - i)) with (S (Z.to_nat (n - (i + 1)))) by lia.
    rewrite Hx, firstn_cons.
    set (w2 := set_disk _ w1).
    assert (Hd2 : disk w2 !! filename = Some (t ++ show_int x))
      by (subst w2; world_simpl; apply lookup_insert_eq).
    case_bool_decide as Hlast.
    + rewrite (put_open filename (t ++ show_int x)) by done.
      set (w3 := set_disk _ w2).
      destruct (IH (i + 1) w3 ((t ++ show_int x) ++ [comma])) as [tr Hrun];
        try (subst w3 w2 w1; world_simpl; lia).
      { subst w3. world_simpl. apply lookup_insert_eq. }
      exists tr. rewrite Hrun. subst w3 w2 w1. world_simpl.
      rewrite !insert_insert_eq. unfold set_disk, set_heap. world_simpl.
      do 3 f_equal.
      destruct (take (Z.to_nat (n - (i + 1))) _) as [|y l] eqn:E.
      { apply (f_equal length) in E. rewrite length_take, length_drop in E.
        world_simpl. unfold len in *. cbn [length] in E. lia. }
      rewrite <- (csv_cons_app t x (y :: l)). by rewrite <- !(assoc_L (++)).
    + rewrite run_ret.
      destruct (IH (i + 1) w2 (t ++ show_int x)) as [tr Hrun];
        try (subst w2 w1; world_simpl; lia); [done|].
      exists tr. rewrite Hrun. subst w2 w1. world_simpl.
      rewrite !insert_insert_eq. unfold set_disk, set_heap. world_simpl.
      do 3 f_equal.
      replace (Z.to_nat (n - (i + 1))) with 0%nat by lia.
      rewrite take_0. cbn [csv]. by rewrite !app_nil_r.
  - exists (trace (heap w)). replace (Z.to_nat (n - i)) with 0%nat by lia.
    rewrite take_0. cbn [csv]. rewrite app_nil_r, insert_id by done.
    by rewrite world_eta.
Qed.

Lemma write_numbers_to_file_ok n filename w :
  writable w filename = true → n ≤ len (numbers (heap w)) → n ≤ INT_MAX →
  ∃ tr, write_numbers_to_file n filename w
        = Done tt (set_disk
             (<[filename := csv (take (Z.to_nat n) (numbers (heap w)))]> (disk w))
             (set_heap (State (numbers (heap w)) tr) w)).
Proof.
  intros Hw Hn Hint. unfold write_numbers_to_file.
  rewrite run_bind. unfold open_out. rewrite Hw.
  set (w1 := set_disk _ w).
  destruct (decide (0 ≤ n)) as [Hpos|Hneg].
  - destruct (write_loop_ok (Z.to_nat n) filename n 0 w1 []) as [tr Hrun];
      try (subst w1; world_simpl; lia).
    { subst w1. world_simpl. apply lookup_insert_eq. }
    exists tr. rewrite Hrun. subst w1. world_simpl.
    rewrite insert_insert_eq, Z.sub_0_r. by rewrite drop_0.
  - exists (trace (heap w)).
    rewrite write_loop_eq, bool_decide_eq_false_2, run_ret by lia.
    replace (Z.to_nat n) with 0%nat by lia. rewrite take_0.
    subst w1. unfold set_disk, set_heap. world_simpl. by destruct w as [[]].
Qed.

Lemma write_numbers_to_file_closed n filename w :
  writable w filename = false → write_numbers_to_file n filename w = Done tt w.
Proof.
  intros Hw. unfold write_numbers_to_file. rewrite run_bind. unfold open_out.
  by rewrite Hw.
Qed.

(** ** [read_numbers_from_file] *)

Lemma read_loop_csv fuel x l count :
  read_loop (S fuel) (csv (x :: l)) count =
  throwing (stoi (show_int x)) ≫= λ v,
  on_array (store count v) ≫= λ _,
  read_loop fuel (csv l) (int_succ count).
Proof. cbn [read_loop]. by rewrite getline_csv. Qed.

Lemma read_loop_end fuel count w : read_loop fuel [] count w = Done count w.
Proof. by destruct fuel. Qed.

(** The loop on the text of a list of [int]s stores them from cell [count]
    on and counts them. *)
Lemma read_loop_ok fuel l count w :
  Forall is_int l → 0 ≤ count →
  count + Z.of_nat (length l) ≤ len (numbers (heap w)) →
  count + Z.of_nat (length l) ≤ INT_MAX →
  (length l ≤ fuel)%nat →
  ∃ tr, read_loop fuel (csv l) count w
        = Done (count + Z.of_nat (length l))
               (set_heap (State (take (Z.to_nat count) (numbers (heap w)) ++ l
                                 ++ drop (Z.to_nat count + length l) (numbers (heap w)))
                                tr) w).
Proof.
  intros Hl. revert fuel count w.
  induction Hl as [|x l Hx Hl IH]; intros fuel count w Hc Hlen Hint Hfuel.
  - exists (trace (heap w)). cbn [csv]. rewrite read_loop_end.
    cbn [length app]. rewrite Z.add_0_r, Nat.add_0_r, take_drop.
    f_equal. by destruct w as [[]].
  - cbn [length] in *. destruct fuel as [|fuel]; [lia|].
    assert (Hs : int_succ count = count + 1) by (apply int_succ_id; unfold INT_MIN; lia).
    rewrite read_loop_csv, stoi_show_int, bool_decide_eq_true_2 by done.
    rewrite run_bind. cbn [throwing]. rewrite run_ret.
    rewrite run_bind, on_array_store_inside by lia. rewrite Hs. clear Hs.
    set (w1 := set_heap _ w).
    destruct (IH fuel (count + 1) w1) as [tr Hrun];
      try (subst w1; world_simpl; rewrite ?len_upd; lia).
    exists tr. rewrite Hrun. subst w1. unfold set_heap, upd. world_simpl.
    unfold len in *.
    f_equal; [lia|]. do 2 f_equal.
    replace (Z.to_nat (count + 1)) with (S (Z.to_nat count)) by lia.
    erewrite take_S_r by (apply list_lookup_insert_eq; lia).
    rewrite take_insert_ge by lia. rewrite drop_insert_lt by lia.
    rewrite <- (assoc_L (++)). cbn [app]. do 4 f_equal. lia.
Qed.

(** When the list is longer than what is left of the array, the first number
    that does not fit is stored just beyond its end. *)
Lemma read_loop_overflow fuel l count w :
  Forall is_int l → 0 ≤ count → count ≤ len (numbers (heap w)) →
  len (numbers (heap w)) < count + Z.of_nat (length l) →
  len (numbers (heap w)) ≤ INT_MAX →
  (length l ≤ fuel)%nat →
  read_loop fuel (csv l) count w
  = Raised (ArrayFault (OutOfBounds (len (numbers (heap w))))).
Proof.
  intros Hl. revert fuel count w.
  induction Hl as [|x l Hx Hl IH]; intros fuel count w Hc Hin Hlen Hint Hfuel.
  - cbn [length] in *. lia.
  - cbn [length] in *. destruct fuel as [|fuel]; [lia|].
    rewrite read_loop_csv, stoi_show_int, bool_decide_eq_true_2 by done.
    rewrite run_bind. cbn [throwing]. rewrite run_ret. rewrite run_bind.
    destruct (decide (count = len (numbers (heap w)))) as [->|Hne].
    + by rewrite on_array_store_outside by lia.
    + assert (Hs : int_succ count = count + 1)
        by (apply int_succ_id; unfold INT_MIN; lia).
      rewrite on_array_store_inside by lia. rewrite Hs. clear Hs.
      set (w1 := set_heap _ w).
      assert (Hl1 : len (numbers (heap w1)) = len (numbers (heap w)))
        by (subst w1; world_simpl; apply len_upd).
      rewrite IH; rewrite ?Hl1; (done || lia).
Qed.

(** A number that is not an [int] stops the loop with [out_of_range], after
    the numbers before it have been stored. *)
Lemma read_loop_out_of_range fuel l x l' count w :
  Forall is_int l → ¬ is_int x → 0 ≤ count →
  count + Z.of_nat (length l) ≤ len (numbers (heap w)) →
  count + Z.of_nat (length l) ≤ INT_MAX →
  (length l < fuel)%nat →
  read_loop fuel (csv (l ++ x :: l')) count w = Raised OutOfRange.
Proof.
  intros Hl Hx. revert fuel count w.
  induction Hl as [|y l Hy Hl IH]; intros fuel count w Hc Hlen Hint Hfuel;
    (destruct fuel as [|fuel]; [cbn [length] in *; lia|]); cbn [app].
  - rewrite read_loop_csv, stoi_show_int, bool_decide_eq_false_2 by done.
    by rewrite run_bind.
  - cbn [length] in *.
    assert (Hs : int_succ count = count + 1) by (apply int_succ_id; unfold INT_MIN; lia).
    rewrite read_loop_csv, stoi_show_int, bool_decide_eq_true_2 by done.
    rewrite run_bind. cbn [throwing]. rewrite run_ret.
    rewrite run_bind, on_array_store_inside by lia. rewrite Hs. clear Hs.
    set (w1 := set_heap _ w).
    assert (Hl1 : len (numbers (heap w1)) = len (numbers (heap w)))
      by (subst w1; world_simpl; apply len_upd).
    apply IH; rewrite ?Hl1; lia.
Qed.

Lemma generate_random_numbers_ok n w :
  n ≤ len (numbers (heap w)) → n ≤ INT_MAX →
  ∃ tr, generate_random_numbers n w
        = Done tt (with_array w
             (generated (rand_seq w) (rand_calls w) (Z.to_nat n)
              ++ drop (Z.to_nat n) (numbers (heap w)))
             tr (Z.to_nat n)).
Proof.
  intros Hn Hint. unfold generate_random_numbers.
  destruct (decide (0 ≤ n)) as [Hpos|Hneg].
  - destruct (generate_loop_ok (Z.to_nat n) n 0 w) as [tr Hrun]; try lia.
    exists tr. rewrite Hrun. by rewrite Z.sub_0_r.
  - exists (trace (heap w)).
    rewrite generate_loop_eq, bool_decide_eq_false_2, run_ret by lia.
    replace (Z.to_nat n) with 0%nat by lia.
    unfold with_array, generated. cbn [seq fmap list_fmap app].
    rewrite drop_0, Nat.add_0_r. by destruct w as [[]].
Qed.

Lemma read_numbers_from_file_ok filename l w :
  disk w !! filename = Some (csv l) → Forall is_int l →
  Z.of_nat (length l) ≤ len (numbers (heap w)) → Z.of_nat (length l) ≤ INT_MAX →
  ∃ tr, read_numbers_from_file filename w
        = Done (Z.of_nat (length l))
               (set_heap (State (l ++ drop (length l) (numbers (heap w))) tr) w).
Proof.
  intros Hf Hl Hlen Hint. unfold read_numbers_from_file.
  rewrite run_bind. unfold open_in. rewrite Hf.
  destruct (read_loop_ok (length (csv l)) l 0 w) as [tr Hrun];
    try done; try lia; [apply csv_length|].
  exists tr. rewrite Hrun. by rewrite Z.add_0_l.
Qed.

(** Sorting the whole of a non-empty array of up to [HALF_MAX + 1] cells. *)
Lemma quickSort_whole s :
  0 < len (numbers s) ≤ HALF_MAX + 1 →
  ∃ s', quickSort 0 (len (numbers s) - 1) s = Ok tt s' ∧
        Sorted Z.le (numbers s') ∧ numbers s' ≡ₚ numbers s.
Proof.
  intros Hlen.
  assert (Hv : valid_call s 0 (len (numbers s) - 1)).
  { unfold valid_call, is_int, INT_MIN, INT_MAX, HALF_MAX in *. lia. }
  destruct (quickSort_returns _ _ _ Hv) as [s' Hrun]; [lia|].
  destruct (quickSort_result _ _ _ _ Hv Hrun) as [Ht Hs].
  pose proof (touches_len _ _ _ _ Ht) as Hl.
  exists s'. split; [done|]. split; [|apply Ht].
  rewrite <- (slice_whole (numbers s')), Hl.
  apply slice_sorted; [done|lia|done].
Qed.

(** ** [main] *)

Lemma new_array_ok n w :
  0 ≤ n →
  new_array n w
  = Done tt (set_heap (State (junk w <$> seq 0 (Z.to_nat n)) (trace (heap w))) w).
Proof. intros Hn. unfold new_array. by rewrite bool_decide_eq_false_2 by lia. Qed.

Lemma generated_is_int rs start m : Forall is_int (generated rs start m).
Proof.
  eapply Forall_impl; [apply generated_bounds|].
  intros v Hv. unfold is_int, INT_MIN, INT_MAX. simpl in Hv. lia.
Qed.

(** The part of [run] up to the read-back: the array holds the generated
    numbers, the input file their text, and the count read back is [n]. *)
Lemma run_prefix n w :
  0 ≤ n ≤ INT_MAX → writable w INFILE = true →
  ∃ tr,
    (new_array n ≫= λ _, generate_random_numbers n ≫= λ _,
     write_numbers_to_file n INFILE ≫= λ _, read_numbers_from_file INFILE) w
    = Done n (set_disk (<[INFILE := csv (generated (rand_seq w) (rand_calls w) (Z.to_nat n))]> (disk w))
                (with_array w (generated (rand_seq w) (rand_calls w) (Z.to_nat n))
                   tr (Z.to_nat n))).
Proof.
  intros Hn Hw. set (g := generated (rand_seq w) (rand_calls w) (Z.to_nat n)).
  assert (Hg : length g = Z.to_nat n) by apply generated_length.
  rewrite run_bind, new_array_ok by lia. set (w1 := set_heap _ w).
  assert (Hl1 : len (numbers (heap w1)) = n).
  { subst w1. world_simpl. unfold len. rewrite length_fmap, length_seq. lia. }
  destruct (generate_random_numbers_ok n w1) as [tr2 Hrun2]; try lia.
  rewrite run_bind, Hrun2. clear Hrun2.
  rewrite drop_ge, app_nil_r by (unfold len in Hl1; lia).
  change (generated (rand_seq w1) (rand_calls w1) (Z.to_nat n)) with g.
  set (w2 := with_array w1 g tr2 _).
  destruct (write_numbers_to_file_ok n INFILE w2) as [tr3 Hrun3];
    try (subst w2; world_simpl; unfold len; lia); [done|].
  rewrite run_bind, Hrun3. clear Hrun3.
  replace (take (Z.to_nat n) (numbers (heap w2))) with g
    by (subst w2; world_simpl; by rewrite take_ge by lia).
  set (w3 := set_disk _ _).
  destruct (read_numbers_from_file_ok INFILE g w3) as [tr4 Hrun4];
    try (subst w3 w2; world_simpl; unfold len; lia).
  { subst w3. world_simpl. apply lookup_insert_eq. }
  { apply generated_is_int. }
  rewrite Hrun4. clear Hrun4. exists tr4. rewrite Hg. f_equal; [lia|].
  subst w3 w2 w1. unfold set_heap, set_disk, with_array. world_simpl.
  by rewrite drop_ge, app_nil_r by lia.
Qed.

Lemma run_split n w :
  run n w =
  match (new_array n ≫= λ _, generate_random_numbers n ≫= λ _,
         write_numbers_to_file n INFILE ≫= λ _, read_numbers_from_file INFILE) w with
  | Done count w' => run_rest count w'
  | Raised e => Raised e
  end.
Proof.
  unfold run, run_rest. rewrite !run_bind.
  destruct (new_array n w) as [[] w1|]; [|done]. rewrite !run_bind.
  destruct (generate_random_numbers n w1) as [[] w2|]; [|done]. rewrite !run_bind.
  destruct (write_numbers_to_file n INFILE w2) as [[] w3|]; [|done]. rewrite !run_bind.
  by destruct (read_numbers_from_file INFILE w3).
Qed.

(** Whatever [run] returns, it returns 0. *)
Lemma run_rest_zero count w x w' : run_rest count w = Done x w' → x = 0.
Proof.
  unfold run_rest. rewrite run_bind.
  match goal with |- context [match ?m w with _ => _ end] =>
    destruct (m w) as [[] w1|]; [|done] end.
  rewrite run_bind. unfold delete_array. rewrite run_ret. by intros [= <- _].
Qed.

Lemma run_zero n w x w' : run n w = Done x w' → x = 0.
Proof.
  rewrite run_split.
  match goal with |- context [match ?m w with _ => _ end] =>
    destruct (m w) as [count w1|]; [|done] end.
  apply run_rest_zero.
Qed.

(** Sorting the first [count] cells of an array. *)
Lemma quickSort_prefix s count :
  0 < count → count ≤ len (numbers s) → count ≤ HALF_MAX + 1 →
  ∃ s', quickSort 0 (count - 1) s = Ok tt s' ∧
        len (numbers s') = len (numbers s) ∧
        Sorted Z.le (take (Z.to_nat count) (numbers s')) ∧
        take (Z.to_nat count) (numbers s') ≡ₚ take (Z.to_nat count) (numbers s) ∧
        drop (Z.to_nat count) (numbers s') = drop (Z.to_nat count) (numbers s).
Proof.
  intros Hc Hlen Hhalf.
  assert (Hv : valid_call s 0 (count - 1)).
  { unfold valid_call, is_int, INT_MIN, INT_MAX, HALF_MAX in *. lia. }
  destruct (quickSort_returns _ _ _ Hv) as [s' Hrun]; [lia|].
  destruct (quickSort_result _ _ _ _ Hv Hrun) as [Ht Hs].
  pose proof (touches_len _ _ _ _ Ht) as Hl.
  assert (Hslice : ∀ a, slice a 0 (count - 1) = take (Z.to_nat count) a).
  { intros a. unfold slice. rewrite drop_0. f_equal. lia. }
  exists s'. split; [done|]. split; [done|]. rewrite <- !Hslice. split; [|split].
  - apply slice_sorted; [done|lia|done].
  - by apply touches_slice.
  - apply list_eq. intros k. rewrite !lookup_drop.
    apply (touches_frame _ _ _ _ Ht). lia.
Qed.

(** The second half of [run] on an array of at least [count] cells: the
    first [count] numbers are sorted and written to the output file. *)
Lemma run_rest_sorts count w :
  0 < count → count ≤ len (numbers (heap w)) → count ≤ HALF_MAX + 1 →
  writable w OUTFILE = true →
  ∃ srt tr,
    run_rest count w
    = Done 0 (set_disk (<[OUTFILE := csv srt]> (disk w)) (set_heap (State [] tr) w))
    ∧ Sorted Z.le srt ∧ srt ≡ₚ take (Z.to_nat count) (numbers (heap w)).
Proof.
  intros Hc Hlen Hhalf Hw. unfold run_rest.
  rewrite bool_decide_eq_true_2 by lia.
  rewrite int_pred_id by (unfold INT_MIN, INT_MAX, HALF_MAX in *; lia).
  destruct (quickSort_prefix (heap w) count)
    as (s' & Hrun & Hl & Hsorted & Hperm & _); try done.
  rewrite !run_bind. unfold on_array at 1. rewrite Hrun.
  set (w1 := set_heap s' w).
  destruct (write_numbers_to_file_ok count OUTFILE w1) as [tr Hrun'];
    try (subst w1; world_simpl; unfold INT_MAX, HALF_MAX in *; lia); [done|].
  rewrite Hrun'. clear Hrun'.
  exists (take (Z.to_nat count) (numbers s')), tr. split; [|done].
  unfold delete_array. by subst w1.
Qed.

Lemma read_numbers_from_file_overflow filename l w :
  disk w !! filename = Some (csv l) → Forall is_int l →
  len (numbers (heap w)) < Z.of_nat (length l) → len (numbers (heap w)) ≤ INT_MAX →
  read_numbers_from_file filename w
  = Raised (ArrayFault (OutOfBounds (len (numbers (heap w))))).
Proof.
  intros Hf Hl Hlen Hint. unfold read_numbers_from_file.
  rewrite run_bind. unfold open_in. rewrite Hf.
  apply read_loop_overflow; try done; try (unfold len; lia). apply csv_length.
Qed.

(** ** Files not written by the program *)

Lemma getline_csv_then x l t :
  getline (csv (x :: l) ++ comma :: t) comma
  = Some (show_int x, match l with [] => t | _ :: _ => csv l ++ comma :: t end).
Proof.
  unfold getline. destruct (csv (x :: l) ++ comma :: t) as [|c u] eqn:E.
  { by apply app_eq_nil in E as [_ ?]. }
  rewrite <- E. f_equal. cbn [csv]. rewrite <- (assoc_L (++)).
  destruct l as [|y l]; apply break_at_app, show_int_no_comma.
Qed.

(** The loop on the text of a non-empty list of [int]s followed by a comma
    stores the list from cell [count] on and goes on with what follows the
    comma. *)
Lemma read_loop_then fuel l t count w :
  l ≠ [] → Forall is_int l → 0 ≤ count →
  count + Z.of_nat (length l) ≤ len (numbers (heap w)) →
  count + Z.of_nat (length l) ≤ INT_MAX →
  (length l ≤ fuel)%nat →
  ∃ tr, read_loop fuel (csv l ++ comma :: t) count w
        = read_loop (fuel - length l) t (count + Z.of_nat (length l))
            (set_heap (State (take (Z.to_nat count) (numbers (heap w)) ++ l
                              ++ drop (Z.to_nat count + length l) (numbers (heap w)))
                             tr) w).
Proof.
  intros Hne Hl. revert fuel count w.
  induction Hl as [|x l Hx Hl IH]; [done|]. clear Hne.
  intros fuel count w Hc Hlen Hint Hfuel.
  cbn [length] in *. destruct fuel as [|fuel]; [lia|].
  assert (Hs : int_succ count = count + 1) by (apply int_succ_id; unfold INT_MIN; lia).
  cbn [read_loop]. rewrite getline_csv_then, stoi_show_int, bool_decide_eq_true_2 by done.
  rewrite run_bind. cbn [throwing]. rewrite run_ret.
  rewrite run_bind, on_array_store_inside by lia. rewrite Hs. clear Hs.
  set (w1 := set_heap _ w).
  assert (Hstep : take (Z.to_nat (count + 1)) (numbers (heap w1))
                  = take (Z.to_nat count) (numbers (heap w)) ++ [x]
                  ∧ ∀ k, (Z.to_nat count < k)%nat →
                         drop k (numbers (heap w1)) = drop k (numbers (heap w))).
  { subst w1. unfold upd. world_simpl. unfold len in *. split.
    - replace (Z.to_nat (count + 1)) with (S (Z.to_nat count)) by lia.
      erewrite take_S_r by (apply list_lookup_insert_eq; lia).
      by rewrite take_insert_ge by lia.
    - intros k Hk. by rewrite drop_insert_lt by lia. }
  destruct Hstep as [Htake Hdrop].
  destruct l as [|y l].
  - exists (Store count :: trace (heap w)). cbn [length app].
    replace (S fuel - 1)%nat with fuel by lia.
    replace (count + Z.of_nat 1) with (count + 1) by lia.
    f_equal. subst w1. unfold set_heap, upd. do 3 f_equal.
    rewrite insert_take_drop by (unfold len in *; lia).
    do 3 f_equal. lia.
  - destruct (IH ltac:(done) fuel (count + 1) w1) as [tr Hrun];
      try (subst w1; world_simpl; rewrite ?len_upd; cbn [length] in *; lia).
    exists tr. rewrite Hrun. cbn [length] in *.
    replace (S fuel - S (S (length l)))%nat with (fuel - S (length l))%nat by lia.
    f_equal; [lia|]. unfold set_heap. world_simpl. do 2 f_equal.
    rewrite Htake, <- (assoc_L (++)). cbn [app]. do 4 f_equal.
    rewrite Hdrop by lia. f_equal. lia.
Qed.

Lemma read_loop_empty_line fuel rest count w :
  read_loop (S fuel) (comma :: rest) count w = Raised InvalidArgument.
Proof. reflexivity. Qed.

(** ** What a run leaves alone *)

Lemma bind_done {A B} (m : P A) (k : A → P B) w y w'' :
  (m ≫= k) w = Done y w'' → ∃ x w', m w = Done x w' ∧ k x w' = Done y w''.
Proof.
  rewrite run_bind. destruct (m w) as [x w'|]; [|done]. intros Hk. by exists x, w'.
Qed.

Lemma on_array_done {A} (m : M A) w x w' :
  on_array m w = Done x w' → disk w' = disk w.
Proof.
  unfold on_array. destruct (m (heap w)) as [y s|]; [|done]. by intros [= _ <-].
Qed.

Lemma generate_loop_disk fuel n i w x w' :
  generate_loop fuel n i w = Done x w' → disk w' = disk w.
Proof.
  revert i w. induction fuel as [|fuel IH]; intros i w;
    rewrite generate_loop_eq; case_bool_decide; try done;
    try (rewrite run_ret; by intros [= _ <-]).
  intros (r & w1 & Hr & (? & w2 & Hs & Hrest)%bind_done)%bind_done.
  apply IH in Hrest. apply on_array_done in Hs.
  unfold rand in Hr. injection Hr as _ <-. by rewrite Hrest, Hs.
Qed.

Lemma put_other filename t w x w' f :
  put filename t w = Done x w' → f ≠ filename → disk w' !! f = disk w !! f.
Proof.
  unfold put. intros [= _ <-] Hne. world_simpl. by rewrite lookup_insert_ne.
Qed.

Lemma write_loop_disk fuel filename n i w x w' f :
  write_loop fuel filename n i w = Done x w' → f ≠ filename →
  disk w' !! f = disk w !! f.
Proof.
  intros Hrun Hne. revert i w Hrun. induction fuel as [|fuel IH]; intros i w;
    rewrite write_loop_eq; case_bool_decide; try done;
    try (rewrite run_ret; by intros [= _ <-]).
  intros (v & w1 & Hl & (? & w2 & Hp & (? & w3 & Hc & Hrest)%bind_done)%bind_done)%bind_done.
  apply IH in Hrest. apply on_array_done in Hl.
  apply (put_other _ _ _ _ _ f) in Hp; [|done].
  assert (disk w3 !! f = disk w2 !! f) as Hc'.
  { case_bool_decide; [by apply (put_other _ _ _ _ _ f) in Hc|].
    rewrite run_ret in Hc. by injection Hc as _ <-. }
  by rewrite Hrest, Hc', Hp, Hl.
Qed.

Lemma write_numbers_to_file_disk n filename w x w' f :
  write_numbers_to_file n filename w = Done x w' → f ≠ filename →
  disk w' !! f = disk w !! f.
Proof.
  unfold write_numbers_to_file. intros (b & w1 & Ho & Hrest)%bind_done Hne.
  unfold open_out in Ho. destruct (writable w filename).
  - injection Ho as <- <-. apply (write_loop_disk _ _ _ _ _ _ _ f) in Hrest; [|done].
    rewrite Hrest. world_simpl. by rewrite lookup_insert_ne.
  - injection Ho as <- <-. rewrite run_ret in Hrest. by injection Hrest as _ <-.
Qed.

Lemma read_loop_disk fuel rest count w x w' :
  read_loop fuel rest count w = Done x w' → disk w' = disk w.
Proof.
  revert rest count w. induction fuel as [|fuel IH]; intros rest count w;
    cbn [read_loop]; destruct (getline rest comma) as [[line rest']|];
    try done; try (rewrite run_ret; by intros [= _ <-]).
  intros (v & w1 & Hv & (? & w2 & Hs & Hrest)%bind_done)%bind_done.
  apply IH in Hrest. apply on_array_done in Hs.
  destruct (stoi line); [|done]. cbn [throwing] in Hv. rewrite run_ret in Hv.
  injection Hv as _ <-. by rewrite Hrest, Hs.
Qed.

Lemma read_numbers_from_file_disk filename w x w' :
  read_numbers_from_file filename w = Done x w' → disk w' = disk w.
Proof.
  unfold read_numbers_from_file. intros (c & w1 & Ho & Hrest)%bind_done.
  unfold open_in in Ho. injection Ho as <- <-.
  destruct (disk w !! filename).
  - by apply read_loop_disk in Hrest.
  - rewrite run_ret in Hrest. by injection Hrest as _ <-.
Qed.

Lemma run_disk n w x w' f :
  run n w = Done x w' → f ≠ INFILE → f ≠ OUTFILE → disk w' !! f = disk w !! f.
Proof.
  unfold run.
  intros (? & w1 & Hnew & (? & w2 & Hgen & (? & w3 & Hwr & (count & w4 & Hrd &
           (? & w5 & Hsort & (? & w6 & Hdel & Hret)%bind_done)%bind_done
         )%bind_done)%bind_done)%bind_done)%bind_done Hin Hout.
  rewrite run_ret in Hret. injection Hret as _ <-.
  unfold delete_array in Hdel. injection Hdel as _ <-. world_simpl.
  assert (disk w5 !! f = disk w4 !! f) as H5.
  { case_bool_decide.
    - apply bind_done in Hsort as (? & w' & Hq & Hw).
      apply on_array_done in Hq.
      apply (write_numbers_to_file_disk _ _ _ _ _ f) in Hw; [|done]. by rewrite Hw, Hq.
    - rewrite run_ret in Hsort. by injection Hsort as _ <-. }
  apply read_numbers_from_file_disk in Hrd.
  apply (write_numbers_to_file_disk _ _ _ _ _ f) in Hwr; [|done].
  apply generate_loop_disk in Hgen.
  unfold new_array in Hnew. destruct (bool_decide (n < 0)); [done|]. injection Hnew as _ <-.
  by rewrite H5, Hrd, Hwr, Hgen.
Qed.

(** ** Properties of the functions around [quickSort] *)

(** X1.  [generate_random_numbers(numbers, n)] with [n] up to the length of
    the array stores in cells [0..n-1], in order, what the next [n] calls of
    [rand()] return, each reduced modulo 1000 and so between 0 and 999; it
    leaves the other cells and the files as they are and makes exactly [n]
    calls (none when [n ≤ 0]). *)
Theorem generate_random_numbers_fills n w :
  is_int n → n ≤ len (numbers (heap w)) →
  let g := generated (rand_seq w) (rand_calls w) (Z.to_nat n) in
  Forall (λ v, 0 ≤ v ≤ 999) g ∧
  ∃ tr, generate_random_numbers n w
        = Done tt (with_array w (g ++ drop (Z.to_nat n) (numbers (heap w)))
                     tr (Z.to_nat n)).
Proof.
  intros [_ Hint] Hn. split; [apply generated_bounds|].
  by apply generate_random_numbers_ok.
Qed.

Lemma generate_random_numbers_fills_witness :
  ∃ tr, generate_random_numbers 3 (sample_world [5; 6; 7; 8])
        = Done tt (with_array (sample_world [5; 6; 7; 8]) [13; 932; 851; 8] tr 3).
Proof.
  destruct (generate_random_numbers_fills 3 (sample_world [5; 6; 7; 8]))
    as [_ Hrun]; [concrete_call|concrete_call|exact Hrun].
Defined.



(** X3.  [write_numbers_to_file(numbers, n, filename)] with [n] up to the
    length of the array and a file that can be opened: the file then holds,
    whatever it held before, the first [n] numbers in decimal with one comma
    between each two and none at the end (nothing at all when [n ≤ 0]); the
    array and the other files are left as they are. *)
Theorem write_numbers_to_file_text n filename w :
  is_int n → n ≤ len (numbers (heap w)) → writable w filename = true →
  ∃ tr, write_numbers_to_file n filename w
        = Done tt (set_disk
             (<[filename := csv (take (Z.to_nat n) (numbers (heap w)))]> (disk w))
             (set_heap (State (numbers (heap w)) tr) w)).
Proof. intros [_ Hint] Hn Hw. by apply write_numbers_to_file_ok. Qed.

Lemma write_numbers_to_file_text_witness :
  ∃ tr, write_numbers_to_file 3 OUTFILE (sample_world [5; -6; 70; 8])
        = Done tt (set_disk (<[OUTFILE := arg "5,-6,70"]> ∅)
                     (set_heap (State [5; -6; 70; 8] tr) (sample_world [5; -6; 70; 8]))).
Proof.
  apply (write_numbers_to_file_text 3 OUTFILE (sample_world [5; -6; 70; 8]));
    [concrete_call|concrete_call|reflexivity].
Defined.

(** X4.  [read_numbers_from_file(numbers, filename)] on a file that holds
    the text of a list of [int]s no longer than the array: the result is the
    length of the list, cells [0..count-1] hold the list, the other cells
    and the files are left as they are (count 0 for an empty file). *)
Theorem read_numbers_from_file_parses filename l w :
  disk w !! filename = Some (csv l) → Forall is_int l →
  Z.of_nat (length l) ≤ len (numbers (heap w)) → Z.of_nat (length l) ≤ INT_MAX →
  ∃ tr, read_numbers_from_file filename w
        = Done (Z.of_nat (length l))
            (set_heap (State (l ++ drop (length l) (numbers (heap w))) tr) w).
Proof. apply read_numbers_from_file_ok. Qed.

Lemma read_numbers_from_file_parses_witness :
  ∃ tr, read_numbers_from_file INFILE (stale_world [0; 0; 0; 0] [12; -3; 7])
        = Done 3 (set_heap (State [12; -3; 7; 0] tr) (stale_world [0; 0; 0; 0] [12; -3; 7])).
Proof.
  apply (read_numbers_from_file_parses INFILE [12; -3; 7] (stale_world [0; 0; 0; 0] [12; -3; 7])).
  - reflexivity.
  - repeat constructor; concrete_call.
  - concrete_call.
  - concrete_call.
Defined.



(** X6.  A number in the file that does not fit an [int] makes
    [read_numbers_from_file] throw [out_of_range] (from [stoi]); nothing
    catches it. *)
Theorem read_numbers_from_file_out_of_range filename l x l' w :
  disk w !! filename = Some (csv (l ++ x :: l')) → Forall is_int l → ¬ is_int x →
  Z.of_nat (length l) ≤ len (numbers (heap w)) → Z.of_nat (length l) ≤ INT_MAX →
  read_numbers_from_file filename w = Raised OutOfRange.
Proof.
  intros Hf Hl Hx Hlen Hint. unfold read_numbers_from_file.
  rewrite run_bind. unfold open_in. rewrite Hf.
  apply read_loop_out_of_range; try done; try lia.
  pose proof (csv_length (l ++ x :: l')) as Hc.
  rewrite length_app in Hc. cbn [length] in Hc. lia.
Qed.

Lemma read_numbers_from_file_out_of_range_witness :
  read_numbers_from_file INFILE (stale_world [0; 0; 0] [12; 2147483648; 7])
  = Raised OutOfRange.
Proof.
  apply (read_numbers_from_file_out_of_range INFILE [12] 2147483648 [7]
           (stale_world [0; 0; 0] [12; 2147483648; 7])).
  - reflexivity.
  - repeat constructor; concrete_call.
  - concrete_call.
  - concrete_call.
  - concrete_call.
Defined.

(** X7.  Round trip: writing the first [n] numbers of the array to a file
    and reading that file back returns [n] (0 when [n] is negative) and
    leaves the array as it was. *)
Theorem write_read_round_trip n filename w :
  is_int n → n ≤ len (numbers (heap w)) → writable w filename = true →
  Forall is_int (take (Z.to_nat n) (numbers (heap w))) →
  ∃ tr, (write_numbers_to_file n filename ≫= λ _, read_numbers_from_file filename) w
        = Done (Z.max n 0)
            (set_disk (<[filename := csv (take (Z.to_nat n) (numbers (heap w)))]> (disk w))
               (set_heap (State (numbers (heap w)) tr) w)).
Proof.
  intros [Hmin Hint] Hn Hw Hl.
  destruct (write_numbers_to_file_ok n filename w) as [tr1 Hrun1]; try done.
  rewrite run_bind, Hrun1. set (w1 := set_disk _ _).
  set (l := take (Z.to_nat n) (numbers (heap w))) in *.
  assert (Hlen : length l = Z.to_nat n)
    by (subst l; rewrite length_take; unfold len in *; lia).
  assert (Hl1 : numbers (heap w1) = numbers (heap w)) by done.
  destruct (read_numbers_from_file_ok filename l w1) as [tr2 Hrun2].
  { subst w1. world_simpl. apply lookup_insert_eq. }
  { done. }
  { rewrite Hl1. unfold len in *. lia. }
  { unfold INT_MAX in *. lia. }
  exists tr2. rewrite Hrun2. f_equal; [lia|].
  subst w1 l. unfold set_heap, set_disk. world_simpl.
  by rewrite length_take_le, take_drop by (unfold len in *; lia).
Qed.

Lemma write_read_round_trip_witness :
  ∃ tr, (write_numbers_to_file 3 INFILE ≫= λ _, read_numbers_from_file INFILE)
          (sample_world [5; -6; 70; 8])
        = Done 3 (set_disk (<[INFILE := arg "5,-6,70"]> ∅)
                    (set_heap (State [5; -6; 70; 8] tr) (sample_world [5; -6; 70; 8]))).
Proof.
  apply (write_read_round_trip 3 INFILE (sample_world [5; -6; 70; 8])).
  all: try reflexivity; try concrete_call.
  repeat constructor; concrete_call.
Defined.

(** ** Properties of [main] *)

(** X8.  [main] asked for [n] numbers, [1 ≤ n ≤ HALF_MAX + 1] ([n] is 100
    without an argument), with both files writable: it returns 0, the input
    file holds the [n] generated numbers in the order generated, the output
    file holds the same numbers in non-decreasing order, and [rand()] has
    been called [n] times.  What the fresh array held does not matter. *)
Theorem main_sorts argv n w :
  requested argv = Value n → 1 ≤ n ≤ HALF_MAX + 1 →
  writable w INFILE = true → writable w OUTFILE = true →
  let g := generated (rand_seq w) (rand_calls w) (Z.to_nat n) in
  ∃ srt w', main argv w = Done 0 w' ∧
            disk w' = <[OUTFILE := csv srt]> (<[INFILE := csv g]> (disk w)) ∧
            Sorted Z.le srt ∧ srt ≡ₚ g ∧
            rand_calls w' = (rand_calls w + Z.to_nat n)%nat.
Proof.
  intros Hreq Hn Hin Hout g. unfold main. rewrite Hreq, run_split.
  destruct (run_prefix n w) as [tr Hrun];
    [unfold INT_MAX, HALF_MAX in *; lia|done|].
  rewrite Hrun. fold g. set (w1 := set_disk _ _).
  destruct (run_rest_sorts n w1) as (srt & tr' & Hrest & Hsorted & Hperm);
    [lia| |lia|done|].
  { subst w1 g. world_simpl. unfold len. rewrite generated_length. lia. }
  exists srt. eexists. split; [exact Hrest|].
  subst w1. world_simpl. rewrite take_ge in Hperm; [done|].
  subst g. rewrite generated_length. lia.
Qed.

Lemma main_sorts_witness :
  ∃ srt w', main [arg "quicksort"; arg "6"] (sample_world []) = Done 0 w' ∧
            disk w' = <[OUTFILE := csv srt]>
                        (<[INFILE := arg "13,932,851,770,689,608"]> ∅) ∧
            Sorted Z.le srt ∧ srt ≡ₚ [13; 932; 851; 770; 689; 608] ∧
            rand_calls w' = 6%nat.
Proof.
  apply (main_sorts [arg "quicksort"; arg "6"] 6 (sample_world []));
    [reflexivity|concrete_call|reflexivity|reflexivity].
Defined.

(** X9.  [main] asked for 0 numbers, with a writable input file: it returns
    0 and leaves an empty input file; nothing is sorted, the output file is
    not touched and [rand()] is not called. *)
Theorem main_nothing_to_sort argv w :
  requested argv = Value 0 → writable w INFILE = true →
  ∃ tr, main argv w
        = Done 0 (set_disk (<[INFILE := []]> (disk w)) (set_heap (State [] tr) w)).
Proof.
  intros Hreq Hin. unfold main. rewrite Hreq, run_split.
  destruct (run_prefix 0 w) as [tr Hrun]; [unfold INT_MAX; lia|done|].
  rewrite Hrun. exists tr. unfold run_rest.
  rewrite bool_decide_eq_false_2 by lia.
  change (Z.to_nat 0) with 0%nat. unfold generated. cbn [seq fmap list_fmap csv].
  rewrite run_bind, run_ret, run_bind. unfold delete_array. rewrite run_ret.
  unfold set_disk, set_heap, with_array. world_simpl. by rewrite Nat.add_0_r.
Qed.

Lemma main_nothing_to_sort_witness :
  ∃ tr, main [arg "quicksort"; arg "0"] (sample_world [])
        = Done 0 (set_disk (<[INFILE := []]> ∅) (set_heap (State [] tr) (sample_world []))).
Proof.
  apply (main_nothing_to_sort [arg "quicksort"; arg "0"] (sample_world []));
    reflexivity.
Defined.

(** X10.  The exit code of [main] is 1 exactly when there is an argument
    that [stoi] rejects, and then nothing else has been done; whenever
    [main] returns otherwise, it returns 0. *)
Theorem main_exit_code argv w x w' :
  main argv w = Done x w' →
  (x = 1 ∧ w' = w ∧ ∃ e, requested argv = Throw e) ∨
  (x = 0 ∧ ∃ n, requested argv = Value n).
Proof.
  unfold main. destruct (requested argv) as [n|e].
  - intros Hrun. right. split; [by apply run_zero in Hrun|by exists n].
  - rewrite run_ret. intros [= <- <-]. left. split; [done|]. split; [done|by exists e].
Qed.

Lemma main_exit_code_witness :
  (1 = 1 ∧ sample_world [] = sample_world [] ∧
   ∃ e, requested [arg "quicksort"; arg "many"] = Throw e) ∨
  (1 = 0 ∧ ∃ n, requested [arg "quicksort"; arg "many"] = Value n).
Proof.
  apply (main_exit_code [arg "quicksort"; arg "many"] (sample_world []) 1 (sample_world [])).
  reflexivity.
Defined.

(** The part of [run] up to the read-back when the input file cannot be
    opened for writing: the array is generated, the file is as it was. *)
Lemma run_prefix_closed n w :
  0 ≤ n ≤ INT_MAX → writable w INFILE = false →
  ∃ tr,
    (new_array n ≫= λ _, generate_random_numbers n ≫= λ _,
     write_numbers_to_file n INFILE ≫= λ _, read_numbers_from_file INFILE) w
    = read_numbers_from_file INFILE
        (with_array w (generated (rand_seq w) (rand_calls w) (Z.to_nat n))
           tr (Z.to_nat n)).
Proof.
  intros Hn Hw.
  rewrite run_bind, new_array_ok by lia. set (w1 := set_heap _ w).
  assert (Hl1 : len (numbers (heap w1)) = n).
  { subst w1. world_simpl. unfold len. rewrite length_fmap, length_seq. lia. }
  destruct (generate_random_numbers_ok n w1) as [tr2 Hrun2]; try lia.
  rewrite run_bind, Hrun2. clear Hrun2.
  rewrite drop_ge, app_nil_r by (unfold len in Hl1; lia).
  rewrite run_bind, write_numbers_to_file_closed by done.
  by exists tr2.
Qed.

(** X11.  When the input file cannot be opened for writing, [main] reads
    back whatever an older input file holds: with more numbers in it than
    were asked for, the read-back stores a number just beyond the end of
    the array. *)
Theorem main_stale_input_overruns argv n l w :
  requested argv = Value n → 0 ≤ n ≤ INT_MAX →
  writable w INFILE = false →
  disk w !! INFILE = Some (csv l) → Forall is_int l → n < Z.of_nat (length l) →
  main argv w = Raised (ArrayFault (OutOfBounds n)).
Proof.
  intros Hreq Hn Hw Hf Hl Hlen. unfold main. rewrite Hreq, run_split.
  destruct (run_prefix_closed n w) as [tr Hrun]; [done|done|].
  rewrite Hrun. set (w1 := with_array _ _ _ _).
  assert (Hl1 : len (numbers (heap w1)) = n).
  { subst w1. world_simpl. unfold len. rewrite generated_length. lia. }
  rewrite (read_numbers_from_file_overflow INFILE l w1), ?Hl1; (done || lia).
Qed.

Lemma main_stale_input_overruns_witness :
  main [arg "quicksort"; arg "2"] (stale_world [] [12; -3; 7])
  = Raised (ArrayFault (OutOfBounds 2)).
Proof.
  apply (main_stale_input_overruns [arg "quicksort"; arg "2"] 2 [12; -3; 7]
           (stale_world [] [12; -3; 7])).
  - reflexivity.
  - concrete_call.
  - reflexivity.
  - reflexivity.
  - repeat constructor; concrete_call.
  - concrete_call.
Defined.

(** X12.  When the input file can neither be written nor read, [main] still
    returns 0: the numbers are generated, nothing is sorted and no file is
    written. *)
Theorem main_without_files argv n w :
  requested argv = Value n → 0 ≤ n ≤ INT_MAX →
  writable w INFILE = false → disk w !! INFILE = None →
  ∃ tr, main argv w
        = Done 0 (with_array w [] tr (Z.to_nat n)).
Proof.
  intros Hreq Hn Hw Hf. unfold main. rewrite Hreq, run_split.
  destruct (run_prefix_closed n w) as [tr Hrun]; [done|done|].
  rewrite Hrun. exists tr. unfold read_numbers_from_file.
  rewrite run_bind. unfold open_in. world_simpl. rewrite Hf, run_ret.
  unfold run_rest. rewrite bool_decide_eq_false_2 by lia.
  rewrite run_bind, run_ret, run_bind. unfold delete_array. by rewrite run_ret.
Qed.

Lemma main_without_files_witness :
  ∃ tr, main [arg "quicksort"] closed_world = Done 0 (with_array closed_world [] tr 100).
Proof.
  apply (main_without_files [arg "quicksort"] 100 closed_world);
    [reflexivity|concrete_call|reflexivity|reflexivity].
Defined.



(** X14.  A comma after the last number is accepted: on the text of a
    non-empty list of [int]s followed by one comma, [read_numbers_from_file]
    returns the length of the list and stores the list, as without the
    comma. *)
Theorem read_numbers_from_file_trailing_comma filename l w :
  l ≠ [] → disk w !! filename = Some (csv l ++ [comma]) → Forall is_int l →
  Z.of_nat (length l) ≤ len (numbers (heap w)) → Z.of_nat (length l) ≤ INT_MAX →
  ∃ tr, read_numbers_from_file filename w
        = Done (Z.of_nat (length l))
            (set_heap (State (l ++ drop (length l) (numbers (heap w))) tr) w).
Proof.
  intros Hne Hf Hl Hlen Hint. unfold read_numbers_from_file.
  rewrite run_bind. unfold open_in. rewrite Hf.
  destruct (read_loop_then (length (csv l ++ [comma])) l [] 0 w) as [tr Hrun];
    try done; try lia.
  { rewrite length_app. pose proof (csv_length l). lia. }
  exists tr. rewrite Hrun, read_loop_end. by rewrite Z.add_0_l.
Qed.

Lemma read_numbers_from_file_trailing_comma_witness :
  ∃ tr, read_numbers_from_file INFILE
          (World (fresh [0; 0; 0]) {[INFILE := arg "12,-3,"]} (λ _, true)
             sample_rand 0 (λ _, 77))
        = Done 2 (set_heap (State [12; -3; 0] tr)
                    (World (fresh [0; 0; 0]) {[INFILE := arg "12,-3,"]} (λ _, true)
                       sample_rand 0 (λ _, 77))).
Proof.
  apply (read_numbers_from_file_trailing_comma INFILE [12; -3]
           (World (fresh [0; 0; 0]) {[INFILE := arg "12,-3,"]} (λ _, true)
              sample_rand 0 (λ _, 77))).
  - discriminate.
  - reflexivity.
  - repeat constructor; concrete_call.
  - concrete_call.
  - concrete_call.
Defined.

(** X15.  An empty entry, a comma at the very start of the file or right
    after the comma that ends a number, makes [read_numbers_from_file] throw
    [invalid_argument] (from [stoi]); nothing catches it. *)
Theorem read_numbers_from_file_empty_entry filename l rest w :
  disk w !! filename
  = Some (match l with [] => [] | _ :: _ => csv l ++ [comma] end ++ comma :: rest) →
  Forall is_int l →
  Z.of_nat (length l) ≤ len (numbers (heap w)) → Z.of_nat (length l) ≤ INT_MAX →
  read_numbers_from_file filename w = Raised InvalidArgument.
Proof.
  intros Hf Hl Hlen Hint. unfold read_numbers_from_file.
  rewrite run_bind. unfold open_in. rewrite Hf.
  destruct l as [|x l]; [apply read_loop_empty_line|].
  rewrite <- (assoc_L (++)). cbn [app].
  set (fuel := length _).
  assert (Hfuel : (S (length (x :: l)) ≤ fuel)%nat).
  { subst fuel. rewrite length_app. pose proof (csv_length (x :: l)).
    cbn [length] in *. lia. }
  destruct (read_loop_then fuel (x :: l) (comma :: rest) 0 w) as [tr Hrun];
    try done; try lia.
  rewrite Hrun.
  destruct (fuel - length (x :: l))%nat as [|fuel'] eqn:E; [lia|].
  apply read_loop_empty_line.
Qed.

Lemma read_numbers_from_file_empty_entry_witness :
  read_numbers_from_file INFILE
    (World (fresh [0; 0; 0]) {[INFILE := arg "12,-3,,7"]} (λ _, true)
       sample_rand 0 (λ _, 77))
  = Raised InvalidArgument.
Proof.
  apply (read_numbers_from_file_empty_entry INFILE [12; -3] (arg "7")
           (World (fresh [0; 0; 0]) {[INFILE := arg "12,-3,,7"]} (λ _, true)
              sample_rand 0 (λ _, 77))).
  - reflexivity.
  - repeat constructor; concrete_call.
  - concrete_call.
  - concrete_call.
Defined.

(** X16.  Whenever [main] returns, every file other than
    [input_numbers.csv] and [sorted_numbers.csv] holds what it held before,
    or is still absent: the program creates, empties and writes no other
    file. *)
Theorem main_touches_only_its_files argv w x w' f :
  main argv w = Done x w' → f ≠ INFILE → f ≠ OUTFILE →
  disk w' !! f = disk w !! f.
Proof.
  unfold main. destruct (requested argv) as [n|e].
  - apply run_disk.
  - rewrite run_ret. by intros [= _ <-].
Qed.

Lemma main_touches_only_its_files_witness :
  ∃ w', main [arg "quicksort"; arg "3"] kept_world = Done 0 w' ∧
        disk w' !! "notes.txt" = disk kept_world !! "notes.txt" ∧
        disk w' !! INFILE = Some (arg "13,932,851").
Proof.
  eexists. split; [vm_compute; reflexivity|]. split; [|reflexivity].
  apply (main_touches_only_its_files [arg "quicksort"; arg "3"] kept_world 0);
    [vm_compute; reflexivity|done|done].
Defined.
